(** * Flowers for Algorithm: a shallow embedding of [flowers.cpp]

    The rat's drives ([ratState]), the need classification, decay and
    satisfaction, the graph loader and the Dijkstra-style [findRoute] with
    its helpers are translated function by function.

    Modelling conventions.
    - A C++ [char] is an [ascii]; an [int] is a [Z].  The one [int]
      addition whose operands come from the graph file, the
      [weight + nodeWeight[currentNum]] of [findNeighbors], is checked
      against the 32-bit range [INT_MIN, INT_MAX]: signed overflow is
      undefined behaviour.  The other arithmetic stays on drive values and
      distances below [INFINITY_APPROX].
    - Arrays are lists: the edge arrays have [VERTEX_COUNT] entries, the
      [nodeWeight] array has [VERTEX_COUNT/2] entries and is updated with
      stdpp's list insert [<[i:=x]>] and read with [!!!].  The loop of
      [findNeighbors] reads the edge array by index; an index past the
      end of the list is an out-of-bounds read.
    - Reading an uninitialized local (the [nodeNumber] of [nodeToNumber]
      on a letter outside the switch, the [node] of [findLeast] when no
      entry qualifies, ...) is undefined behaviour; it is the outcome
      [Uninit] of the small [exec] monad below.  Signed overflow and
      out-of-bounds reads are the outcome [Undefined].
    - The [while] loop of [findRoute] has no bound in the source; it is
      run with [LOOP_FUEL] rounds and the outcome [OutOfFuel] marks
      exhaustion.  The theorems below show that the fuel never runs out. *)

From Stdlib Require Import ZArith Lia Ascii String List.
From stdpp Require Import base list.
Import ListNotations.

Open Scope Z_scope.

(* ------------------------------------------------------------------ *)
(** ** Constants *)

Definition MAX_CHAR : Z := 100.
Definition FUN_MAX : Z := 35.
Definition HEALTH_MAX : Z := 60.
Definition HUNGER_MAX : Z := 30.
Definition SLEEP_MAX : Z := 40.
Definition VERTEX_COUNT : nat := 18.
Definition INFINITY_APPROX : Z := 42.

(** The range of a 32-bit [int]. *)
Definition INT_MAX : Z := 2147483647.
Definition INT_MIN : Z := -2147483648.

(* ------------------------------------------------------------------ *)
(** ** Structs *)

Record ratState := mkRatState {
  fun_ : Z;
  health : Z;
  hunger : Z;
  sleep : Z
}.

Record edgeWeight := mkEdge {
  initial : ascii;
  terminal : ascii;
  weight : Z
}.

(* ------------------------------------------------------------------ *)
(** ** Execution outcomes *)

Inductive exec (A : Type) : Type :=
| Ok : A -> exec A
| Uninit : exec A        (* read of an uninitialized variable *)
| Undefined : exec A     (* signed overflow or an out-of-bounds read *)
| OutOfFuel : exec A.    (* the unbounded loop ran past [LOOP_FUEL] *)
Arguments Ok {A} _.
Arguments Uninit {A}.
Arguments Undefined {A}.
Arguments OutOfFuel {A}.

Definition exec_bind {A B} (m : exec A) (k : A -> exec B) : exec B :=
  match m with
  | Ok a => k a
  | Uninit => Uninit
  | Undefined => Undefined
  | OutOfFuel => OutOfFuel
  end.

Global Instance exec_ret : MRet exec := @Ok.
Global Instance exec_mbind : MBind exec := fun A B k m => exec_bind m k.

(** [int] addition: a sum outside [INT_MIN, INT_MAX] is signed overflow. *)
Definition int_add (a b : Z) : exec Z :=
  let s := a + b in
  if (INT_MIN <=? s) && (s <=? INT_MAX) then Ok s else Undefined.

(* ------------------------------------------------------------------ *)
(** ** State machine *)

(** [initializeDrives]: each drive is [rand() % MAX]; the four draws of
    [rand()] (values in [0, RAND_MAX]) are parameters.  C++ [%] is the
    remainder of truncating division, [Z.rem]. *)
Definition initializeDrives (r1 r2 r3 r4 : Z) : ratState :=
  {| fun_ := Z.rem r1 FUN_MAX;
     health := Z.rem r2 HEALTH_MAX;
     hunger := Z.rem r3 HUNGER_MAX;
     sleep := Z.rem r4 SLEEP_MAX |}.

(** [setPercentage]: C++ integer division truncates toward zero, [Z.quot]. *)
Definition setPercentage (drives : ratState) : ratState :=
  {| fun_ := Z.quot (100 * fun_ drives) FUN_MAX;
     health := Z.quot (100 * health drives) HEALTH_MAX;
     hunger := Z.quot (100 * hunger drives) HUNGER_MAX;
     sleep := Z.quot (100 * sleep drives) SLEEP_MAX |}.

(** [identifyState], without the printing. *)
Definition identifyState (drives : ratState) : ascii :=
  let percent := setPercentage drives in
  let biggestNeed := "M"%char in
  let index := health percent in
  let '(index, biggestNeed) :=
    if hunger percent <? index then (hunger percent, "F"%char)
    else (index, biggestNeed) in
  let '(index, biggestNeed) :=
    if sleep percent <? index then (sleep percent, "N"%char)
    else (index, biggestNeed) in
  let '(index, biggestNeed) :=
    if fun_ percent <? index then (fun_ percent, "W"%char)
    else (index, biggestNeed) in
  if 50 <? index then "E"%char else biggestNeed.

(** [updateState]. *)
Definition clamp0 (x : Z) : Z := if x <? 0 then 0 else x.

Definition updateState (drives : ratState) (travel : Z) : ratState :=
  {| fun_ := clamp0 (fun_ drives - travel);
     health := clamp0 (health drives - travel);
     hunger := clamp0 (hunger drives - travel);
     sleep := clamp0 (sleep drives - travel) |}.

(** [satisfyNeed], without the printing. *)
Definition satisfyNeed (drives : ratState) (currentLocation : ascii) : ratState :=
  if ascii_dec currentLocation "F" then
    {| fun_ := fun_ drives; health := health drives;
       hunger := HUNGER_MAX; sleep := sleep drives |}
  else if ascii_dec currentLocation "M" then
    {| fun_ := fun_ drives; health := HEALTH_MAX;
       hunger := hunger drives; sleep := sleep drives |}
  else if ascii_dec currentLocation "N" then
    {| fun_ := fun_ drives; health := health drives;
       hunger := hunger drives; sleep := SLEEP_MAX |}
  else if ascii_dec currentLocation "W" then
    {| fun_ := FUN_MAX; health := health drives;
       hunger := hunger drives; sleep := sleep drives |}
  else drives.

(* ------------------------------------------------------------------ *)
(** ** Graph loading *)

(** The text file [graphWeights]: [None] when it cannot be opened,
    otherwise the sequence of well-formed [<char> <char> <int>] triples it
    holds, in order.  Once the triples are exhausted the stream is in its
    fail state and every further [>>] leaves its target untouched. *)
Definition triple := (ascii * ascii * Z)%type.

Fixpoint readEdges (n i : nat) (inFile : list triple) (baseGraph : list edgeWeight)
  : list edgeWeight :=
  match n with
  | O => baseGraph
  | S n' =>
      match inFile with
      | (a, b, w) :: rest =>
          readEdges n' (S i) rest (<[i := {| initial := a; terminal := b; weight := w |}]> baseGraph)
      | [] => baseGraph
      end
  end.

(** [loadGraph]: returns the [bool] result and the array [baseGraph]
    after the call (its previous contents are the argument). *)
Definition loadGraph (file : option (list triple)) (baseGraph : list edgeWeight)
  : bool * list edgeWeight :=
  match file with
  | None => (false, baseGraph)
  | Some inFile => (true, readEdges VERTEX_COUNT 0 inFile baseGraph)
  end.

(** [copyGraph]: the copy of an array. *)
Definition copyGraph (baseGraph : list edgeWeight) : list edgeWeight :=
  map (fun e => {| initial := initial e; terminal := terminal e; weight := weight e |}) baseGraph.

(* ------------------------------------------------------------------ *)
(** ** Dijkstra's algorithm *)

(** [nodeToNumber]: [None] for a letter outside the switch, where the
    uninitialized [nodeNumber] is returned. *)
Definition nodeToNumber (nodeLetter : ascii) : exec nat :=
  if ascii_dec nodeLetter "E" then Ok 0%nat
  else if ascii_dec nodeLetter "N" then Ok 1%nat
  else if ascii_dec nodeLetter "F" then Ok 2%nat
  else if ascii_dec nodeLetter "A" then Ok 3%nat
  else if ascii_dec nodeLetter "W" then Ok 4%nat
  else if ascii_dec nodeLetter "B" then Ok 5%nat
  else if ascii_dec nodeLetter "M" then Ok 6%nat
  else Uninit.

Definition numberToNode (nodeNumber : nat) : exec ascii :=
  match nodeNumber with
  | 0 => Ok "E"%char
  | 1 => Ok "N"%char
  | 2 => Ok "F"%char
  | 3 => Ok "A"%char
  | 4 => Ok "W"%char
  | 5 => Ok "B"%char
  | 6 => Ok "M"%char
  | _ => Uninit
  end%nat.

(** [initializeNodeWeight]: [VERTEX_COUNT/2] entries at [INFINITY_APPROX]. *)
Definition initializeNodeWeight : list Z :=
  repeat INFINITY_APPROX (Nat.div VERTEX_COUNT 2).

(** [findNeighbors]: the loop [for(i = 0; i < VERTEX_COUNT; i++)] over
    the indices [i, i+1, ...] with [n] iterations left; it relaxes the
    edges leaving [currentNode], the array [nodeWeight] being updated in
    place and read afresh at each edge.  The sum
    [newGraph[i].weight + nodeWeight[currentNum]] is an [int] addition. *)
Fixpoint findNeighbors_loop (n i : nat) (newGraph : list edgeWeight) (nodeWeight : list Z)
    (currentNode : ascii) (currentNum : nat) : exec (list Z) :=
  match n with
  | O => Ok nodeWeight
  | S n' =>
      match newGraph !! i with
      | None => Undefined
      | Some e =>
          if ascii_dec currentNode (initial e) then
            neighborNode ← nodeToNumber (terminal e);
            sum ← int_add (weight e) (nodeWeight !!! currentNum);
            let nodeWeight' :=
              if sum <? nodeWeight !!! neighborNode
              then <[neighborNode := sum]> nodeWeight
              else nodeWeight in
            findNeighbors_loop n' (S i) newGraph nodeWeight' currentNode currentNum
          else findNeighbors_loop n' (S i) newGraph nodeWeight currentNode currentNum
      end
  end.

Definition findNeighbors (newGraph : list edgeWeight) (nodeWeight : list Z)
    (currentNode : ascii) (currentNum : nat) : exec (list Z) :=
  findNeighbors_loop VERTEX_COUNT 0 newGraph nodeWeight currentNode currentNum.

(** [removeVertex]: edges ending at [currentLocation] become ['Z'] to ['Z']. *)
Definition removeVertex (newGraph : list edgeWeight) (currentLocation : ascii)
  : list edgeWeight :=
  map (fun e => if ascii_dec (terminal e) currentLocation
                then {| initial := "Z"; terminal := "Z"; weight := weight e |}
                else e) newGraph.

(** The loop of [findLeast] over indices [i, i+1, ...]; [node] is [None]
    while the C++ variable is still uninitialized. *)
Fixpoint findLeast_loop (nodeWeight : list Z) (i : nat) (base : Z) (node : option nat)
  : option nat :=
  match nodeWeight with
  | [] => node
  | x :: rest =>
      if negb (x =? 0) && (x <? base)
      then findLeast_loop rest (S i) x (Some i)
      else findLeast_loop rest (S i) base node
  end.

Definition findLeast (nodeWeight : list Z) : exec ascii :=
  match findLeast_loop nodeWeight 0 42 None with
  | None => Uninit
  | Some node => numberToNode node
  end.

(** Rounds given to the [while] loop of [findRoute]. *)
Definition LOOP_FUEL : nat := VERTEX_COUNT.

(** The [while(currentNode != terminalNode)] loop of [findRoute]; returns
    the final graph, weights, node and node number. *)
Fixpoint findRoute_loop (fuel : nat) (newGraph : list edgeWeight) (nodeWeight : list Z)
    (currentNode : ascii) (currentNum : nat) (terminalNode : ascii)
  : exec (list edgeWeight * list Z * ascii * nat) :=
  match fuel with
  | O => OutOfFuel
  | S fuel' =>
      if ascii_dec currentNode terminalNode
      then Ok (newGraph, nodeWeight, currentNode, currentNum)
      else
        nodeWeight1 ← findNeighbors newGraph nodeWeight currentNode currentNum;
        let newGraph1 := removeVertex newGraph currentNode in
        let nodeWeight2 := <[currentNum := 0]> nodeWeight1 in
        currentNode1 ← findLeast nodeWeight2;
        currentNum1 ← nodeToNumber currentNode1;
        findRoute_loop fuel' newGraph1 nodeWeight2 currentNode1 currentNum1 terminalNode
  end.

(** [findRoute newGraph currentLocation currentState]: the returned
    distance, the new value of the reference [currentLocation] and the
    array [newGraph] after the call. *)
Definition findRoute (newGraph : list edgeWeight) (currentLocation currentState : ascii)
  : exec (Z * ascii * list edgeWeight) :=
  let currentNode := currentLocation in
  let terminalNode := currentState in
  currentNum ← nodeToNumber currentNode;
  let nodeWeight := <[currentNum := 0]> initializeNodeWeight in
  '(newGraph', nodeWeight', currentNode', currentNum') ←
    findRoute_loop LOOP_FUEL newGraph nodeWeight currentNode currentNum terminalNode;
  Ok (nodeWeight' !!! currentNum', currentNode', newGraph').

(* ------------------------------------------------------------------ *)
(** ** The simulation loop of [main] *)

(** One pass through the body of the [do ... while] loop of [main]:
    a fresh copy of the graph, the classification, the route (which
    moves [currentLocation]), the decay, the satisfaction. *)
Definition simRound (baseGraph : list edgeWeight) (drives : ratState) (currentLocation : ascii)
  : exec (ratState * ascii) :=
  let newGraph := copyGraph baseGraph in
  let currentState := identifyState drives in
  '(travel, currentLocation', _) ← findRoute newGraph currentLocation currentState;
  let drives1 := updateState drives travel in
  let drives2 := satisfyNeed drives1 currentLocation' in
  Ok (drives2, currentLocation').

(** [do { ... } while(currentLocation != 'E');], run for at most [fuel]
    passes (the source has no bound). *)
Fixpoint mainLoop (fuel : nat) (baseGraph : list edgeWeight) (drives : ratState)
    (currentLocation : ascii) : exec (ratState * ascii) :=
  match fuel with
  | O => OutOfFuel
  | S fuel' =>
      '(drives', currentLocation') ← simRound baseGraph drives currentLocation;
      if ascii_dec currentLocation' "E" then Ok (drives', currentLocation')
      else mainLoop fuel' baseGraph drives' currentLocation'
  end.

(* ------------------------------------------------------------------ *)
(** ** Notions used in the statements *)

(** The node alphabet of the maze, in index order. *)
Definition alphabet : list ascii := ["E"; "N"; "F"; "A"; "W"; "B"; "M"]%char.

(** Classification read off the four percentages: the least percentage,
    ties going to the earlier drive in the order health, hunger, sleep,
    fun; [Exit] when that least percentage exceeds 50. *)
Definition least_percent (p : ratState) : Z :=
  Z.min (Z.min (Z.min (health p) (hunger p)) (sleep p)) (fun_ p).

Definition classify (p : ratState) : ascii :=
  let m := least_percent p in
  if 50 <? m then "E"%char
  else if health p =? m then "M"%char
  else if hunger p =? m then "F"%char
  else if sleep p =? m then "N"%char
  else "W"%char.

(** Drives within their declared bounds. *)
Definition drives_in_bounds (d : ratState) : Prop :=
  0 <= fun_ d <= FUN_MAX /\ 0 <= health d <= HEALTH_MAX /\
  0 <= hunger d <= HUNGER_MAX /\ 0 <= sleep d <= SLEEP_MAX.

(** The two operations the simulation loop applies to the drives. *)
Inductive driveOp :=
| Decay (travel : Z)
| Satisfy (currentLocation : ascii).

Definition applyOp (d : ratState) (op : driveOp) : ratState :=
  match op with
  | Decay travel => updateState d travel
  | Satisfy loc => satisfyNeed d loc
  end.

(** Every state visited along a sequence of operations, the start included. *)
Fixpoint driveTrace (d : ratState) (ops : list driveOp) : list ratState :=
  match ops with
  | [] => [d]
  | op :: rest => d :: driveTrace (applyOp d op) rest
  end.

Definition op_travel_nonneg (op : driveOp) : Prop :=
  match op with
  | Decay travel => 0 <= travel
  | Satisfy _ => True
  end.

(** Directed paths of a graph with their total weight. *)
Inductive path (g : list edgeWeight) : ascii -> ascii -> Z -> Prop :=
| path_nil u : path g u u 0
| path_cons e v l :
    In e g -> path g (terminal e) v l -> path g (initial e) v (weight e + l).

(** Edges joining letters of the alphabet, with weights from [minw] to
    [INT_MAX - INFINITY_APPROX]: adding a distance below
    [INFINITY_APPROX] to such a weight never overflows an [int]. *)
Definition edges_ok (minw : Z) (g : list edgeWeight) : Prop :=
  forall e, In e g -> In (initial e) alphabet /\ In (terminal e) alphabet /\
                      minw <= weight e /\ weight e <= INT_MAX - INFINITY_APPROX.

(** A graph array as [loadGraph] fills it: [VERTEX_COUNT] entries, with
    non-negative weights; [pos_graph] asks for positive weights. *)
Definition wf_graph (g : list edgeWeight) : Prop :=
  length g = VERTEX_COUNT /\ edges_ok 0 g.

Definition pos_graph (g : list edgeWeight) : Prop :=
  length g = VERTEX_COUNT /\ edges_ok 1 g.

(** [findNeighbors] as a walk over a list of edges. *)
Fixpoint relax_list (es : list edgeWeight) (nodeWeight : list Z) (currentNode : ascii)
    (currentNum : nat) : exec (list Z) :=
  match es with
  | [] => Ok nodeWeight
  | e :: rest =>
      if ascii_dec currentNode (initial e) then
        neighborNode ← nodeToNumber (terminal e);
        sum ← int_add (weight e) (nodeWeight !!! currentNum);
        let nodeWeight' :=
          if sum <? nodeWeight !!! neighborNode
          then <[neighborNode := sum]> nodeWeight
          else nodeWeight in
        relax_list rest nodeWeight' currentNode currentNum
      else relax_list rest nodeWeight currentNode currentNum
  end.

(* ------------------------------------------------------------------ *)
(** ** Search invariants and test graphs *)

Definition seventeen_triples : list triple := repeat ("E"%char, "N"%char, 1) 17.
Definition unset_graph : list edgeWeight :=
  repeat {| initial := "?"; terminal := "?"; weight := 0 |} VERTEX_COUNT.

(** The working copy after [removeVertex] has run on every node of [S]. *)
Definition markVisited (S : list ascii) (g : list edgeWeight) : list edgeWeight :=
  map (fun e => if in_dec ascii_dec (terminal e) S
                then {| initial := "Z"; terminal := "Z"; weight := weight e |}
                else e) g.

Definition reachable (g : list edgeWeight) (u v : ascii) : Prop := exists l, path g u v l.

(** Loop invariant of [findRoute] used for an unreachable target: the
    entries below [INFINITY_APPROX] belong to reachable nodes, the nodes
    of [S] (the ones already left) carry the visited mark 0. *)
Definition inv_search (g : list edgeWeight) (src : ascii) (S : list ascii)
    (w : list Z) (c : ascii) (num : nat) : Prop :=
  nodeToNumber c = Ok num /\
  length w = 9%nat /\
  (forall i, (7 <= i < 9)%nat -> w !!! i = 42) /\
  (forall i, (i < 9)%nat -> 0 <= w !!! i) /\
  (forall k i, nodeToNumber k = Ok i -> w !!! i < 42 -> reachable g src k) /\
  reachable g src c /\ w !!! num < 42 /\
  (forall s, In s S -> exists i, nodeToNumber s = Ok i /\ w !!! i = 0) /\
  ~ In c S /\ List.NoDup S.

(** A node set closed under the edges of a graph. *)
Definition closedb (g : list edgeWeight) (T : list ascii) : bool :=
  forallb (fun e => if in_dec ascii_dec (initial e) T
                    then if in_dec ascii_dec (terminal e) T then true else false
                    else true) g.

Definition edges_okb (minw : Z) (g : list edgeWeight) : bool :=
  forallb (fun e => (if in_dec ascii_dec (initial e) alphabet then true else false) &&
                    (if in_dec ascii_dec (terminal e) alphabet then true else false) &&
                    (minw <=? weight e) && (weight e <=? INT_MAX - INFINITY_APPROX)) g.

Definition both_ways (a b : ascii) (w : Z) : list edgeWeight :=
  [{| initial := a; terminal := b; weight := w |}; {| initial := b; terminal := a; weight := w |}].

(** An 18-edge maze in two pieces: E, N, F, A on one side, W, B, M on the other. *)
Definition split_maze : list edgeWeight :=
  both_ways "E" "N" 2 ++ both_ways "N" "F" 1 ++ both_ways "F" "A" 3 ++
  both_ways "A" "E" 2 ++ both_ways "E" "F" 4 ++ both_ways "N" "A" 1 ++
  both_ways "W" "B" 1 ++ both_ways "B" "M" 2 ++ both_ways "M" "W" 3.

(** Loop invariant of [findRoute] for Dijkstra's argument.  [S] lists
    the nodes already left (settled), [D] their distances; [c] is the
    current node, of number [num]. *)
Definition inv_dijkstra (g : list edgeWeight) (src tgt : ascii) (S : list ascii)
    (D : ascii -> Z) (w : list Z) (c : ascii) (num : nat) : Prop :=
  nodeToNumber c = Ok num /\
  length w = 9%nat /\
  (forall i, (7 <= i < 9)%nat -> w !!! i = 42) /\
  (forall i, (i < 9)%nat -> 0 <= w !!! i) /\
  (forall s, In s S -> exists i, nodeToNumber s = Ok i /\ w !!! i = 0) /\
  ~ In c S /\ List.NoDup S /\ ~ In tgt S /\
  (In src S \/ (src = c /\ w !!! num = 0)) /\
  (forall k i, nodeToNumber k = Ok i -> ~ In k S ->
     w !!! num <= w !!! i /\ w !!! i <= 42 /\ (k <> c -> 1 <= w !!! i)) /\
  (forall k i, nodeToNumber k = Ok i -> ~ In k S -> w !!! i < 42 -> path g src k (w !!! i)) /\
  w !!! num < 42 /\
  (forall u e i, In u S -> In e g -> initial e = u -> ~ In (terminal e) S ->
     nodeToNumber (terminal e) = Ok i -> w !!! i <= D u + weight e) /\
  (forall u l, In u S -> path g src u l -> D u <= l).

(** An 18-edge maze whose weights add up to 30, below [INFINITY_APPROX]. *)
Definition test_maze : list edgeWeight :=
  both_ways "E" "N" 1 ++ both_ways "E" "F" 3 ++ both_ways "N" "F" 1 ++
  both_ways "N" "W" 2 ++ both_ways "F" "A" 1 ++ both_ways "A" "W" 1 ++
  both_ways "W" "B" 1 ++ both_ways "B" "M" 1 ++ both_ways "F" "M" 4.

(** An 18-edge maze where the only routes from E to M weigh 45 or more. *)
Definition heavy_maze : list edgeWeight :=
  both_ways "E" "N" 20 ++ both_ways "N" "F" 20 ++ both_ways "F" "M" 5 ++
  both_ways "A" "W" 1 ++ both_ways "W" "B" 1 ++ both_ways "B" "A" 1 ++
  both_ways "E" "N" 30 ++ both_ways "N" "F" 30 ++ both_ways "F" "M" 30.

(** Loop invariant of [findRoute] on any well-formed graph: every entry
    that is neither the visited mark 0 nor [INFINITY_APPROX] or more is
    the weight of a path from the source, and so is the current node's. *)
Definition inv_sound (g : list edgeWeight) (src : ascii) (S : list ascii)
    (w : list Z) (c : ascii) (num : nat) : Prop :=
  nodeToNumber c = Ok num /\
  length w = 9%nat /\
  (forall i, (7 <= i < 9)%nat -> w !!! i = 42) /\
  (forall i, (i < 9)%nat -> 0 <= w !!! i) /\
  (forall k i, nodeToNumber k = Ok i -> w !!! i <> 0 -> w !!! i < 42 -> path g src k (w !!! i)) /\
  path g src c (w !!! num) /\ w !!! num < 42 /\
  (forall s, In s S -> exists i, nodeToNumber s = Ok i /\ w !!! i = 0) /\
  ~ In c S /\ List.NoDup S.

(** What a run of the search loop can end in: never [OutOfFuel], and a
    returned distance is the weight of a path from [src] below
    [INFINITY_APPROX]. *)
Definition loop_outcome (g : list edgeWeight) (src : ascii)
    (r : exec (list edgeWeight * list Z * ascii * nat)) : Prop :=
  match r with
  | Ok (_, w', n, num') => path g src n (w' !!! num') /\ 0 <= w' !!! num' < 42
  | Uninit => True
  | Undefined => False
  | OutOfFuel => False
  end.

(** The passes of the loop of [main] from one state to another, none of
    them ending at the exit (so the loop goes on after each). *)
Inductive loop_reaches (baseGraph : list edgeWeight) :
    ratState -> ascii -> ratState -> ascii -> Prop :=
| reaches_here d l : loop_reaches baseGraph d l d l
| reaches_pass d l d1 l1 d2 l2 :
    simRound baseGraph d l = Ok (d1, l1) -> l1 <> "E"%char ->
    loop_reaches baseGraph d1 l1 d2 l2 -> loop_reaches baseGraph d l d2 l2.

(** [test_maze] with its last edge replaced by one from E to the unknown
    letter Q. *)
Definition stray_maze : list edgeWeight :=
  firstn 17 test_maze ++ [{| initial := "E"; terminal := "Q"; weight := 1 |}].

(** 18 edges: E to N and E to F cheap, N to F at the largest [int]. *)
Definition overflow_maze : list edgeWeight :=
  [{| initial := "E"; terminal := "N"; weight := 1 |};
   {| initial := "N"; terminal := "F"; weight := INT_MAX |};
   {| initial := "E"; terminal := "F"; weight := 10 |}] ++
  repeat {| initial := "W"; terminal := "B"; weight := 1 |} 15.

(** A zero-weight edge from E to A, then A to F, padded to 18 edges. *)
Definition zero_maze : list edgeWeight :=
  both_ways "E" "A" 0 ++ both_ways "A" "F" 1 ++
  repeat {| initial := "W"; terminal := "B"; weight := 1 |} 14.

(** The edge a triple of the file describes. *)
Definition edgeOfTriple (t : triple) : edgeWeight :=
  let '(a, b, w) := t in {| initial := a; terminal := b; weight := w |}.

(* ================================================================== *)
(** * Properties *)

(* ------------------------------------------------------------------ *)
(** ** Drives *)

Ltac zcases :=
  repeat match goal with
  | |- context [?a <? ?b] => destruct (Z.ltb_spec a b)
  | |- context [?a =? ?b] => destruct (Z.eqb_spec a b)
  end.

Ltac in_edges :=
  unfold test_maze, heavy_maze, both_ways; simpl; repeat (first [left; reflexivity | right]).

Ltac edge_step a b w :=
  apply (path_cons _ {| initial := a; terminal := b; weight := w |}); [in_edges |].

(** C4: [identifyState] picks the least of the four percentages, ties
    going to the earlier of health, hunger, sleep, fun (health being the
    default), and answers Exit ['E'] when that least percentage exceeds 50. *)
Theorem identifyState_classify (drives : ratState) :
  identifyState drives = classify (setPercentage drives).
Proof.
  unfold identifyState, classify, least_percent.
  destruct (setPercentage drives) as [f h u s]; simpl.
  zcases; try reflexivity; try lia; congruence.
Qed.

Example identifyState_nap :
  classify {| health := 40; hunger := 40; sleep := 10; fun_ := 90 |} = "N"%char.
Proof. reflexivity. Qed.

Example identifyState_exit :
  classify {| health := 60; hunger := 60; sleep := 60; fun_ := 60 |} = "E"%char.
Proof. reflexivity. Qed.

Lemma clamp0_max (x : Z) : clamp0 x = Z.max 0 x.
Proof. unfold clamp0. zcases; lia. Qed.

(** C5: [updateState] lowers each drive by the distance travelled and
    clamps it at 0: each new value is [max(0, old - travel)], never below 0. *)
Theorem updateState_decay (drives : ratState) (travel : Z) :
  let d' := updateState drives travel in
  fun_ d' = Z.max 0 (fun_ drives - travel) /\
  health d' = Z.max 0 (health drives - travel) /\
  hunger d' = Z.max 0 (hunger drives - travel) /\
  sleep d' = Z.max 0 (sleep drives - travel) /\
  0 <= fun_ d' /\ 0 <= health d' /\ 0 <= hunger d' /\ 0 <= sleep d'.
Proof.
  simpl. rewrite !clamp0_max. lia.
Qed.

(** C6: [satisfyNeed] resets exactly the drive of the arrival node to its
    maximum (hunger at 'F', health at 'M', sleep at 'N', fun at 'W') and
    keeps the other three; at any other node the state is unchanged. *)
Theorem satisfyNeed_resets (drives : ratState) (loc : ascii) :
  let d' := satisfyNeed drives loc in
  (loc = "F"%char -> d' = {| fun_ := fun_ drives; health := health drives;
                             hunger := HUNGER_MAX; sleep := sleep drives |}) /\
  (loc = "M"%char -> d' = {| fun_ := fun_ drives; health := HEALTH_MAX;
                             hunger := hunger drives; sleep := sleep drives |}) /\
  (loc = "N"%char -> d' = {| fun_ := fun_ drives; health := health drives;
                             hunger := hunger drives; sleep := SLEEP_MAX |}) /\
  (loc = "W"%char -> d' = {| fun_ := FUN_MAX; health := health drives;
                             hunger := hunger drives; sleep := sleep drives |}) /\
  (~ In loc ["F"; "M"; "N"; "W"]%char -> d' = drives).
Proof.
  simpl. unfold satisfyNeed.
  repeat split; intros; subst; try reflexivity.
  repeat (destruct ascii_dec; [subst; simpl in *; tauto |]). reflexivity.
Qed.

(** C8: for drives within their bounds, [setPercentage] gives
    [floor(100 * value / max)] for each drive: the truncating division of
    the source agrees with the floor, no rounding. *)
Theorem setPercentage_floor (drives : ratState) :
  drives_in_bounds drives ->
  setPercentage drives =
  {| fun_ := (100 * fun_ drives) / FUN_MAX;
     health := (100 * health drives) / HEALTH_MAX;
     hunger := (100 * hunger drives) / HUNGER_MAX;
     sleep := (100 * sleep drives) / SLEEP_MAX |}.
Proof.
  unfold drives_in_bounds, setPercentage. intros (Hf & Hh & Hu & Hs).
  rewrite !Z.quot_div_nonneg by (unfold FUN_MAX, HEALTH_MAX, HUNGER_MAX, SLEEP_MAX in *; lia).
  reflexivity.
Qed.

Lemma setPercentage_floor_witness :
  drives_in_bounds {| fun_ := 1; health := 59; hunger := 29; sleep := 39 |} /\
  setPercentage {| fun_ := 1; health := 59; hunger := 29; sleep := 39 |} =
  {| fun_ := 2; health := 98; hunger := 96; sleep := 97 |}.
Proof.
  assert (H : drives_in_bounds {| fun_ := 1; health := 59; hunger := 29; sleep := 39 |})
    by (unfold drives_in_bounds, FUN_MAX, HEALTH_MAX, HUNGER_MAX, SLEEP_MAX; simpl; lia).
  split; [exact H |].
  rewrite (setPercentage_floor _ H). reflexivity.
Defined.

Lemma updateState_in_bounds (d : ratState) (travel : Z) :
  0 <= travel -> drives_in_bounds d -> drives_in_bounds (updateState d travel).
Proof.
  unfold drives_in_bounds; simpl. rewrite !clamp0_max. lia.
Qed.

Lemma satisfyNeed_in_bounds (d : ratState) (loc : ascii) :
  drives_in_bounds d -> drives_in_bounds (satisfyNeed d loc).
Proof.
  unfold drives_in_bounds, satisfyNeed, FUN_MAX, HEALTH_MAX, HUNGER_MAX, SLEEP_MAX.
  intros H. repeat destruct ascii_dec; simpl; lia.
Qed.

Lemma initializeDrives_in_bounds (r1 r2 r3 r4 : Z) :
  0 <= r1 -> 0 <= r2 -> 0 <= r3 -> 0 <= r4 ->
  drives_in_bounds (initializeDrives r1 r2 r3 r4).
Proof.
  intros. unfold drives_in_bounds, initializeDrives, FUN_MAX, HEALTH_MAX, HUNGER_MAX, SLEEP_MAX; simpl.
  rewrite !Z.rem_mod_nonneg by lia.
  repeat split; try (apply Z.mod_pos_bound; lia);
    apply Z.lt_le_incl, Z.mod_pos_bound; lia.
Qed.

Lemma driveTrace_in_bounds (d : ratState) (ops : list driveOp) :
  drives_in_bounds d -> Forall op_travel_nonneg ops ->
  Forall drives_in_bounds (driveTrace d ops).
Proof.
  revert d. induction ops as [| op ops IH]; intros d Hd Hops; simpl.
  - constructor; [exact Hd | constructor].
  - inversion Hops as [| ? ? Hop Hrest]; subst.
    constructor; [exact Hd |]. apply IH; [| exact Hrest].
    destruct op; simpl in *.
    + apply updateState_in_bounds; assumption.
    + apply satisfyNeed_in_bounds; assumption.
Qed.

(** C10: from [initializeDrives] (the [rand()] draws being non-negative),
    along any sequence of [updateState] with non-negative distance and
    [satisfyNeed], every state reached keeps fun in [0,35], health in
    [0,60], hunger in [0,30] and sleep in [0,40]. *)
Theorem drives_stay_in_bounds (r1 r2 r3 r4 : Z) (ops : list driveOp) :
  0 <= r1 -> 0 <= r2 -> 0 <= r3 -> 0 <= r4 ->
  Forall op_travel_nonneg ops ->
  Forall drives_in_bounds (driveTrace (initializeDrives r1 r2 r3 r4) ops).
Proof.
  intros. apply driveTrace_in_bounds; [apply initializeDrives_in_bounds |]; assumption.
Qed.

Lemma drives_stay_in_bounds_witness :
  Forall drives_in_bounds
    (driveTrace (initializeDrives 41 7 100 3)
       [Decay 5; Satisfy "F"%char; Decay 50; Satisfy "W"%char; Satisfy "E"%char]).
Proof.
  apply drives_stay_in_bounds; try lia.
  repeat constructor; simpl; lia.
Defined.

(* ------------------------------------------------------------------ *)
(** ** Node numbering *)

(** C9: [nodeToNumber] and [numberToNode] are inverse bijections between
    the letters E, N, F, A, W, B, M and the indices 0..6. *)
Theorem node_number_bijection :
  (forall c : ascii, In c alphabet ->
     exists n, nodeToNumber c = Ok n /\ (n < 7)%nat /\ numberToNode n = Ok c) /\
  (forall n : nat, (n < 7)%nat ->
     exists c, numberToNode n = Ok c /\ In c alphabet /\ nodeToNumber c = Ok n).
Proof.
  split.
  - intros c Hc. simpl in Hc.
    repeat (destruct Hc as [<- | Hc]; [eexists; split; [reflexivity | split; [lia | reflexivity]] |]).
    contradiction.
  - intros n Hn.
    do 7 (destruct n as [| n];
          [eexists; split; [reflexivity | split; [simpl; tauto | reflexivity]] |]).
    lia.
Qed.

(* ------------------------------------------------------------------ *)
(** ** Graph loading *)

Lemma readEdges_length (n i : nat) (inFile : list triple) (baseGraph : list edgeWeight) :
  length (readEdges n i inFile baseGraph) = length baseGraph.
Proof.
  revert i inFile baseGraph.
  induction n as [| n IH]; intros i inFile baseGraph; simpl; [reflexivity |].
  destruct inFile as [| [[a b] w] rest]; [reflexivity |].
  rewrite IH. apply length_insert.
Qed.

Lemma readEdges_spec (n i : nat) (inFile : list triple) (baseGraph : list edgeWeight) :
  (length inFile <= n)%nat -> (i + length inFile <= length baseGraph)%nat ->
  (forall k a b w, inFile !! k = Some (a, b, w) ->
     readEdges n i inFile baseGraph !! (i + k)%nat =
       Some {| initial := a; terminal := b; weight := w |}) /\
  (forall j, (j < i \/ i + length inFile <= j)%nat ->
     readEdges n i inFile baseGraph !! j = baseGraph !! j).
Proof.
  revert i inFile baseGraph.
  induction n as [| n IH]; intros i inFile baseGraph Hn Hlen.
  - destruct inFile; simpl in *; [| lia].
    split; [intros k a b w Hk; rewrite lookup_nil in Hk; discriminate | reflexivity].
  - destruct inFile as [| [[a b] w] rest]; simpl in *.
    + split; [intros k a b w Hk; rewrite lookup_nil in Hk; discriminate | reflexivity].
    + set (base' := <[i := {| initial := a; terminal := b; weight := w |}]> baseGraph).
      assert (Hlen' : (S i + length rest <= length base')%nat)
        by (unfold base'; rewrite length_insert; lia).
      destruct (IH (S i) rest base' ltac:(lia) Hlen') as [IH1 IH2].
      split.
      * intros [| k] a' b' w' Hk; simpl in Hk.
        -- injection Hk as <- <- <-. rewrite Nat.add_0_r, IH2 by lia.
           unfold base'. apply list_lookup_insert_eq. lia.
        -- replace (i + S k)%nat with (S i + k)%nat by lia. apply IH1. exact Hk.
      * intros j Hj. rewrite IH2 by lia. unfold base'.
        apply list_lookup_insert_ne. lia.
Qed.

(** C3 (as the code does it): [loadGraph] fails only when the file cannot
    be opened.  A source holding fewer than 18 triples loads successfully:
    the first entries of [baseGraph] hold the triples read and the other
    entries keep their previous contents. *)
Theorem loadGraph_short_source (inFile : list triple) (baseGraph : list edgeWeight) :
  (length inFile < VERTEX_COUNT)%nat -> length baseGraph = VERTEX_COUNT ->
  loadGraph None baseGraph = (false, baseGraph) /\
  exists g', loadGraph (Some inFile) baseGraph = (true, g') /\
    length g' = VERTEX_COUNT /\
    (forall k a b w, inFile !! k = Some (a, b, w) ->
       g' !! k = Some {| initial := a; terminal := b; weight := w |}) /\
    (forall j, (length inFile <= j)%nat -> g' !! j = baseGraph !! j).
Proof.
  intros Hin Hbase. split; [reflexivity |].
  eexists. split; [reflexivity |].
  destruct (readEdges_spec VERTEX_COUNT 0 inFile baseGraph) as [H1 H2]; [lia | lia |].
  split; [rewrite readEdges_length; exact Hbase |].
  split; [exact H1 | intros j Hj; apply H2; lia].
Qed.

Lemma loadGraph_short_source_witness :
  (length seventeen_triples < VERTEX_COUNT)%nat /\ length unset_graph = VERTEX_COUNT /\
  exists g', loadGraph (Some seventeen_triples) unset_graph = (true, g') /\
    g' !! 17%nat = unset_graph !! 17%nat.
Proof.
  split; [vm_compute; lia |]. split; [reflexivity |].
  destruct (loadGraph_short_source seventeen_triples unset_graph) as [_ (g' & Hg & _ & _ & H2)];
    [vm_compute; lia | reflexivity |].
  exists g'. split; [exact Hg | apply H2; vm_compute; lia].
Defined.

(** C3 fails as stated: a source with 17 triples is loaded with success
    and the 18th entry keeps whatever the array held before. *)
Lemma loadGraph_seventeen_loads :
  loadGraph (Some seventeen_triples) unset_graph =
  (true, repeat {| initial := "E"; terminal := "N"; weight := 1 |} 17 ++
         [{| initial := "?"; terminal := "?"; weight := 0 |}]).
Proof. vm_compute. reflexivity. Qed.

(* ------------------------------------------------------------------ *)
(** ** Node numbering: helper facts *)

Lemma nodeToNumber_ok (c : ascii) :
  In c alphabet -> exists n, nodeToNumber c = Ok n /\ (n < 7)%nat.
Proof.
  intros Hc. simpl in Hc.
  repeat (destruct Hc as [<- | Hc]; [eexists; split; [reflexivity | lia] |]).
  contradiction.
Qed.

Lemma nodeToNumber_inv (c : ascii) (n : nat) :
  nodeToNumber c = Ok n -> In c alphabet /\ (n < 7)%nat /\ numberToNode n = Ok c.
Proof.
  unfold nodeToNumber.
  repeat (destruct ascii_dec as [-> | _];
          [intros H; injection H as <-; split; [simpl; tauto | split; [lia | reflexivity]] |]).
  discriminate.
Qed.

Lemma numberToNode_inv (n : nat) (c : ascii) :
  numberToNode n = Ok c -> In c alphabet /\ (n < 7)%nat /\ nodeToNumber c = Ok n.
Proof.
  intros H.
  do 7 (destruct n as [| n];
        [injection H as <-; split; [simpl; tauto | split; [lia | reflexivity]] |]).
  discriminate.
Qed.

Lemma Z_not_in_alphabet : ~ In "Z"%char alphabet.
Proof. simpl. intuition discriminate. Qed.

Lemma length_initializeNodeWeight : length initializeNodeWeight = 9%nat.
Proof. reflexivity. Qed.

(* ------------------------------------------------------------------ *)
(** ** [findRoute] when source and target coincide *)

Lemma bind_Ok {A B} (a : A) (k : A -> exec B) : (x ← Ok a; k x) = k a.
Proof. reflexivity. Qed.

Lemma bind_Uninit {A B} (k : A -> exec B) : (x ← Uninit; k x) = Uninit.
Proof. reflexivity. Qed.

Lemma findRoute_loop_S (fuel : nat) (newGraph : list edgeWeight) (nodeWeight : list Z)
    (currentNode : ascii) (currentNum : nat) (terminalNode : ascii) :
  findRoute_loop (S fuel) newGraph nodeWeight currentNode currentNum terminalNode =
  if ascii_dec currentNode terminalNode
  then Ok (newGraph, nodeWeight, currentNode, currentNum)
  else
    nodeWeight1 ← findNeighbors newGraph nodeWeight currentNode currentNum;
    let newGraph1 := removeVertex newGraph currentNode in
    let nodeWeight2 := <[currentNum := 0]> nodeWeight1 in
    currentNode1 ← findLeast nodeWeight2;
    currentNum1 ← nodeToNumber currentNode1;
    findRoute_loop fuel newGraph1 nodeWeight2 currentNode1 currentNum1 terminalNode.
Proof. reflexivity. Qed.

Lemma findRoute_unfold (newGraph : list edgeWeight) (currentLocation currentState : ascii) (n : nat) :
  nodeToNumber currentLocation = Ok n ->
  findRoute newGraph currentLocation currentState =
  '(newGraph', nodeWeight', currentNode', currentNum') ←
    findRoute_loop LOOP_FUEL newGraph (<[n := 0]> initializeNodeWeight)
      currentLocation n currentState;
  Ok (nodeWeight' !!! currentNum', currentNode', newGraph').
Proof. intros Hn. unfold findRoute. rewrite Hn. reflexivity. Qed.

(** C7: for a node X of the alphabet, [findRoute newGraph X X] returns
    distance 0 and leaves the location at X (the graph untouched). *)
Theorem findRoute_same_node (newGraph : list edgeWeight) (X : ascii) :
  In X alphabet -> findRoute newGraph X X = Ok (0, X, newGraph).
Proof.
  intros HX. destruct (nodeToNumber_ok X HX) as (n & Hn & Hlt).
  rewrite (findRoute_unfold _ _ _ n Hn).
  unfold LOOP_FUEL, VERTEX_COUNT. rewrite findRoute_loop_S.
  destruct (ascii_dec X X) as [_ | Hne]; [| contradiction].
  rewrite bind_Ok. rewrite list_lookup_total_insert_eq; [reflexivity |].
  rewrite length_initializeNodeWeight. lia.
Qed.

Lemma findRoute_same_node_witness :
  In "M"%char alphabet /\ findRoute [] "M"%char "M"%char = Ok (0, "M"%char, []).
Proof.
  split; [simpl; tauto |].
  apply findRoute_same_node. simpl; tauto.
Defined.

(* ------------------------------------------------------------------ *)
(** ** Relaxation: [findNeighbors] *)

Lemma int_add_ok (a b : Z) : INT_MIN <= a + b <= INT_MAX -> int_add a b = Ok (a + b).
Proof.
  intros [Hlo Hhi]. unfold int_add.
  rewrite (proj2 (Z.leb_le _ _) Hlo), (proj2 (Z.leb_le _ _) Hhi). reflexivity.
Qed.

Lemma int_add_overflow (a b : Z) : INT_MAX < a + b -> int_add a b = Undefined.
Proof.
  intros Hhi. unfold int_add.
  destruct (Z.leb_spec INT_MIN (a + b)), (Z.leb_spec (a + b) INT_MAX); simpl; try reflexivity; lia.
Qed.

(** The loop of [findNeighbors] over the indices [i, ..., length - 1] is
    the walk over the rest of the edge list. *)
Lemma findNeighbors_loop_relax (n i : nat) (gr : list edgeWeight) (w : list Z) (c : ascii) (num : nat) :
  (i + n)%nat = length gr ->
  findNeighbors_loop n i gr w c num = relax_list (drop i gr) w c num.
Proof.
  revert i w. induction n as [| n IH]; intros i w Hlen; cbn [findNeighbors_loop].
  - rewrite drop_ge by lia. reflexivity.
  - destruct (gr !! i) as [e |] eqn:He.
    + rewrite (drop_S _ _ _ He). cbn [relax_list].
      destruct (ascii_dec c (initial e)); [| apply IH; lia].
      destruct (nodeToNumber (terminal e)) as [nb | | |]; try reflexivity.
      rewrite !bind_Ok.
      destruct (int_add (weight e) (w !!! num)) as [sum | | |]; try reflexivity.
      rewrite !bind_Ok. apply IH; lia.
    + apply lookup_ge_None in He. lia.
Qed.

Lemma findNeighbors_relax_list (gr : list edgeWeight) (w : list Z) (c : ascii) (num : nat) :
  length gr = VERTEX_COUNT -> findNeighbors gr w c num = relax_list gr w c num.
Proof.
  intros Hgl. unfold findNeighbors. rewrite findNeighbors_loop_relax by lia.
  rewrite drop_0. reflexivity.
Qed.

Lemma relax_list_spec (gr : list edgeWeight) (w : list Z) (c : ascii) (num : nat) (d : Z) :
  w !!! num = d -> 0 <= d ->
  (forall e, In e gr -> initial e = c ->
             0 <= weight e /\ weight e + d <= INT_MAX /\ In (terminal e) alphabet) ->
  length w = 9%nat ->
  exists w1, relax_list gr w c num = Ok w1 /\ length w1 = length w /\
    w1 !!! num = w !!! num /\
    forall j,
      w1 !!! j <= w !!! j /\
      (w1 !!! j = w !!! j \/
       exists e, In e gr /\ initial e = c /\ nodeToNumber (terminal e) = Ok j /\
                 w1 !!! j = weight e + w !!! num) /\
      (forall e, In e gr -> initial e = c -> nodeToNumber (terminal e) = Ok j ->
                 w1 !!! j <= weight e + w !!! num).
Proof.
  intros Hd Hd0. revert w Hd. induction gr as [| e rest IH]; intros w Hd Hgr Hlen; simpl.
  - exists w. split; [reflexivity |]. split; [reflexivity |]. split; [reflexivity |].
    intros j. split; [lia |]. split; [left; reflexivity | intros ? []].
  - destruct (ascii_dec c (initial e)) as [Hc | Hc].
    + destruct (Hgr e (or_introl eq_refl) (eq_sym Hc)) as (Hwe & Hwmax & Hte).
      destruct (nodeToNumber_ok _ Hte) as (nb & Hnb & Hnblt).
      rewrite Hnb, bind_Ok, Hd.
      rewrite (int_add_ok (weight e) d) by (unfold INT_MIN; lia). rewrite bind_Ok.
      set (w' := if weight e + d <? w !!! nb then <[nb := weight e + d]> w else w).
      assert (Hlen' : length w' = length w)
        by (unfold w'; destruct (_ <? _); [apply length_insert | reflexivity]).
      assert (Hnum' : w' !!! num = d).
      { unfold w'. destruct (Z.ltb_spec (weight e + d) (w !!! nb)); [| exact Hd].
        rewrite list_lookup_total_insert.
        destruct decide as [[<- _] |]; [lia | exact Hd]. }
      assert (Hj' : forall j, w' !!! j <= w !!! j /\
                      (w' !!! j = w !!! j \/ (j = nb /\ w' !!! j = weight e + d))).
      { intros j. unfold w'. destruct (Z.ltb_spec (weight e + d) (w !!! nb)); [| lia].
        rewrite list_lookup_total_insert.
        destruct decide as [[<- _] |]; lia. }
      assert (Hnb' : w' !!! nb <= weight e + d).
      { unfold w'. destruct (Z.ltb_spec (weight e + d) (w !!! nb)); [| lia].
        rewrite list_lookup_total_insert_eq; [lia | lia]. }
      destruct (IH w' Hnum') as (w1 & Hrun & Hlen1 & Hnum1 & Hspec);
        [intros e' He'; apply Hgr; right; exact He' | lia |].
      rewrite Hnum' in Hnum1, Hspec.
      exists w1. split; [exact Hrun |]. split; [lia |]. split; [exact Hnum1 |].
      intros j. destruct (Hspec j) as (Hle & Hwhy & Hall). destruct (Hj' j) as [Hle' Hwhy'].
      split; [lia |]. split.
      * destruct Hwhy as [Heq | (e' & He' & Hi' & Ht' & Hv')].
        -- destruct Hwhy' as [Heq' | [-> Heq']].
           ++ left. lia.
           ++ right. exists e. split; [left; reflexivity |]. split; [symmetry; exact Hc |].
              split; [exact Hnb | lia].
        -- right. exists e'. split; [right; exact He' |]. split; [exact Hi' |].
           split; [exact Ht' | exact Hv'].
      * intros e' [<- | He'] Hi' Ht'.
        -- rewrite Hnb in Ht'. injection Ht' as <-. lia.
        -- apply Hall; assumption.
    + destruct (IH w Hd) as (w1 & Hrun & Hlen1 & Hnum1 & Hspec);
        [intros e' He'; apply Hgr; right; exact He' | exact Hlen |].
      exists w1. split; [exact Hrun |]. split; [exact Hlen1 |]. split; [exact Hnum1 |].
      intros j. destruct (Hspec j) as (Hle & Hwhy & Hall).
      split; [exact Hle |]. split.
      * destruct Hwhy as [Heq | (e' & He' & Hi' & Ht' & Hv')]; [left; exact Heq |].
        right. exists e'. split; [right; exact He' |]. auto.
      * intros e' [<- | He'] Hi' Ht'; [congruence |]. apply Hall; assumption.
Qed.

Lemma findNeighbors_spec (gr : list edgeWeight) (w : list Z) (c : ascii) (num : nat) :
  length gr = VERTEX_COUNT -> 0 <= w !!! num ->
  (forall e, In e gr -> initial e = c ->
             0 <= weight e /\ weight e + w !!! num <= INT_MAX /\ In (terminal e) alphabet) ->
  length w = 9%nat ->
  exists w1, findNeighbors gr w c num = Ok w1 /\ length w1 = length w /\
    w1 !!! num = w !!! num /\
    forall j,
      w1 !!! j <= w !!! j /\
      (w1 !!! j = w !!! j \/
       exists e, In e gr /\ initial e = c /\ nodeToNumber (terminal e) = Ok j /\
                 w1 !!! j = weight e + w !!! num) /\
      (forall e, In e gr -> initial e = c -> nodeToNumber (terminal e) = Ok j ->
                 w1 !!! j <= weight e + w !!! num).
Proof.
  intros Hgl Hd0 Hgr Hlen. rewrite findNeighbors_relax_list by exact Hgl.
  apply (relax_list_spec _ _ _ _ (w !!! num)); [reflexivity | exact Hd0 | exact Hgr | exact Hlen].
Qed.

(* ------------------------------------------------------------------ *)
(** ** Selection: [findLeast] *)

Lemma findLeast_loop_spec (w : list Z) (i : nat) (base : Z) (node : option nat) :
  (findLeast_loop w i base node = node /\
   forall k x, w !! k = Some x -> x = 0 \/ base <= x) \/
  (exists k x, findLeast_loop w i base node = Some (i + k)%nat /\ w !! k = Some x /\
     x <> 0 /\ x < base /\ forall k' y, w !! k' = Some y -> y <> 0 -> x <= y).
Proof.
  revert i base node. induction w as [| x rest IH]; intros i base node; simpl.
  - left. split; [reflexivity | intros k x Hk; rewrite lookup_nil in Hk; discriminate].
  - destruct (Z.eqb_spec x 0) as [Hx0 | Hx0]; destruct (Z.ltb_spec x base) as [Hxb | Hxb];
      simpl.
    3: { (* x is selected *)
      destruct (IH (S i) x (Some i)) as [[-> Hrest] | (k & x' & -> & Hk & Hx'0 & Hx'b & Hmin)].
      - right. exists 0%nat, x. rewrite Nat.add_0_r.
        split; [reflexivity |]. split; [reflexivity |]. split; [exact Hx0 |].
        split; [exact Hxb |].
        intros [| k'] y Hy Hy0; simpl in Hy; [injection Hy as <-; lia |].
        destruct (Hrest k' y Hy); lia.
      - right. exists (S k), x'. replace (i + S k)%nat with (S i + k)%nat by lia.
        split; [reflexivity |]. split; [exact Hk |]. split; [exact Hx'0 |].
        split; [lia |].
        intros [| k'] y Hy Hy0; simpl in Hy; [injection Hy as <-; lia |].
        apply (Hmin k'); assumption. }
    all: destruct (IH (S i) base node) as [[-> Hrest] | (k & x' & -> & Hk & Hx'0 & Hx'b & Hmin)];
      [left; split; [reflexivity |];
       intros [| k'] y Hy; simpl in Hy; [injection Hy as <-; lia | apply (Hrest k'); exact Hy]
      | right; exists (S k), x'; replace (i + S k)%nat with (S i + k)%nat by lia;
        split; [reflexivity |]; split; [exact Hk |]; split; [exact Hx'0 |];
        split; [exact Hx'b |];
        intros [| k'] y Hy Hy0; simpl in Hy; [injection Hy as <-; lia | apply (Hmin k'); assumption]].
Qed.

Lemma lookup_total_some (w : list Z) (j : nat) :
  (j < length w)%nat -> w !! j = Some (w !!! j).
Proof.
  intros Hj. destruct (lookup_lt_is_Some_2 w j Hj) as [x Hx].
  rewrite (list_lookup_total_correct w j x Hx). exact Hx.
Qed.

Lemma findLeast_ok (w : list Z) (c : ascii) :
  findLeast w = Ok c ->
  exists i, nodeToNumber c = Ok i /\ In c alphabet /\ (i < 7)%nat /\
    w !!! i <> 0 /\ w !!! i < 42 /\
    forall j, (j < length w)%nat -> w !!! j <> 0 -> w !!! i <= w !!! j.
Proof.
  unfold findLeast. intros H.
  destruct (findLeast_loop_spec w 0 42 None) as [[Hr _] | (k & x & Hr & Hk & Hx0 & Hxb & Hmin)];
    rewrite Hr in H; [discriminate |].
  simpl in H. destruct (numberToNode_inv _ _ H) as (Hc & Hlt & Hnum).
  exists k. rewrite (list_lookup_total_correct w k x Hk).
  split; [exact Hnum |]. split; [exact Hc |]. split; [exact Hlt |].
  split; [exact Hx0 |]. split; [exact Hxb |].
  intros j Hj Hj0. apply (Hmin j); [apply lookup_total_some; exact Hj | exact Hj0].
Qed.

Lemma findLeast_some (w : list Z) :
  (forall i, (7 <= i < length w)%nat -> w !!! i = 0 \/ 42 <= w !!! i) ->
  (exists j, (j < length w)%nat /\ w !!! j <> 0 /\ w !!! j < 42) ->
  exists c, findLeast w = Ok c.
Proof.
  intros Hhigh (j & Hj & Hj0 & Hj42). unfold findLeast.
  destruct (findLeast_loop_spec w 0 42 None) as [[_ Hall] | (k & x & Hr & Hk & Hx0 & Hxb & _)].
  - destruct (Hall j (w !!! j) (lookup_total_some w j Hj)); lia.
  - rewrite Hr. simpl.
    assert (Hklt : (k < length w)%nat) by (apply lookup_lt_Some in Hk; exact Hk).
    assert (Hk7 : (k < 7)%nat).
    { destruct (Nat.lt_ge_cases k 7) as [| Hge]; [assumption |].
      rewrite <- (list_lookup_total_correct w k x Hk) in Hx0, Hxb.
      destruct (Hhigh k); lia. }
    do 7 (destruct k as [| k]; [eexists; reflexivity |]). lia.
Qed.

(* ------------------------------------------------------------------ *)
(** ** Paths and the pruned graph *)

Lemma nodeToNumber_inj (a b : ascii) (i : nat) :
  nodeToNumber a = Ok i -> nodeToNumber b = Ok i -> a = b.
Proof.
  intros Ha Hb.
  destruct (nodeToNumber_inv a i Ha) as (_ & _ & Ha').
  destruct (nodeToNumber_inv b i Hb) as (_ & _ & Hb').
  congruence.
Qed.

Lemma path_snoc (g : list edgeWeight) (u v : ascii) (l : Z) (e : edgeWeight) :
  path g u v l -> In e g -> initial e = v -> path g u (terminal e) (l + weight e).
Proof.
  intros Hp. induction Hp as [u | e' v l He' Hp IH]; intros He Hi.
  - subst. replace (0 + weight e) with (weight e + 0) by lia.
    apply path_cons; [exact He | apply path_nil].
  - rewrite <- Z.add_assoc. apply path_cons; [exact He' | apply IH; assumption].
Qed.

Lemma path_nonneg (g : list edgeWeight) (u v : ascii) (l : Z) :
  wf_graph g -> path g u v l -> 0 <= l.
Proof.
  intros Hwf Hp. induction Hp as [u | e v l He Hp IH]; [lia |].
  destruct (proj2 Hwf e He) as (_ & _ & Hw & _). lia.
Qed.

(** A path from inside a set of nodes to outside of it takes an edge
    leaving the set, after a prefix that stays a path. *)
Lemma path_exit (g : list edgeWeight) (S : list ascii) (u v : ascii) (l : Z) :
  wf_graph g -> path g u v l -> In u S -> ~ In v S ->
  exists e l1, In e g /\ In (initial e) S /\ ~ In (terminal e) S /\
    path g u (initial e) l1 /\ l1 + weight e <= l.
Proof.
  intros Hwf Hp. induction Hp as [u | e v l He Hp IH]; intros Hu Hv; [contradiction |].
  destruct (in_dec ascii_dec (terminal e) S) as [Hin | Hout].
  - destruct (IH Hin Hv) as (e' & l1 & He' & Hi' & Ht' & Hp' & Hle).
    exists e', (weight e + l1). split; [exact He' |]. split; [exact Hi' |].
    split; [exact Ht' |]. split; [apply path_cons; assumption | lia].
  - exists e, 0. split; [exact He |]. split; [exact Hu |]. split; [exact Hout |].
    split; [apply path_nil |]. pose proof (path_nonneg g _ _ _ Hwf Hp). lia.
Qed.

Lemma markVisited_nil (g : list edgeWeight) : markVisited [] g = g.
Proof. unfold markVisited. simpl. apply map_id. Qed.

Lemma removeVertex_markVisited (S : list ascii) (g : list edgeWeight) (c : ascii) :
  In c alphabet -> removeVertex (markVisited S g) c = markVisited (c :: S) g.
Proof.
  intros Hc. unfold removeVertex, markVisited. rewrite map_map.
  apply map_ext. intros e. cbv beta.
  destruct (in_dec ascii_dec (terminal e) S) as [Hin | Hout];
    destruct (in_dec ascii_dec (terminal e) (c :: S)) as [Hin' | Hout'];
    cbn [terminal weight].
  - destruct (ascii_dec "Z" c) as [<- | _]; [exfalso; exact (Z_not_in_alphabet Hc) | reflexivity].
  - exfalso. apply Hout'. right. exact Hin.
  - destruct Hin' as [Heq | Hin']; [| contradiction].
    destruct (ascii_dec (terminal e) c); [reflexivity | congruence].
  - destruct (ascii_dec (terminal e) c) as [Heq |]; [| reflexivity].
    exfalso. apply Hout'. left. congruence.
Qed.

Lemma length_markVisited (S : list ascii) (g : list edgeWeight) :
  length (markVisited S g) = length g.
Proof. unfold markVisited. apply length_map. Qed.

Lemma markVisited_from (S : list ascii) (g : list edgeWeight) (c : ascii) (e : edgeWeight) :
  In c alphabet -> In e (markVisited S g) -> initial e = c ->
  In e g /\ ~ In (terminal e) S.
Proof.
  intros Hc He Hi. unfold markVisited in He. apply in_map_iff in He as (e0 & <- & He0).
  destruct (in_dec ascii_dec (terminal e0) S) as [Hin | Hout].
  - simpl in Hi. subst c. exfalso. exact (Z_not_in_alphabet Hc).
  - split; assumption.
Qed.

Lemma markVisited_keeps (S : list ascii) (g : list edgeWeight) (e : edgeWeight) :
  In e g -> ~ In (terminal e) S -> In e (markVisited S g).
Proof.
  intros He Hout. unfold markVisited. apply in_map_iff. exists e. split; [| exact He].
  destruct (in_dec ascii_dec (terminal e) S); [contradiction | reflexivity].
Qed.

Lemma alphabet_nodup_length (S : list ascii) :
  List.NoDup S -> (forall s, In s S -> In s alphabet) -> (length S <= 7)%nat.
Proof.
  intros Hnd Hin. change 7%nat with (length alphabet).
  apply NoDup_incl_length; [exact Hnd | intros s Hs; apply Hin; exact Hs].
Qed.

Lemma findLeast_not_fuel (w : list Z) : findLeast w <> OutOfFuel.
Proof.
  unfold findLeast. destruct (findLeast_loop w 0 42 None) as [n |]; [| discriminate].
  do 7 (destruct n as [| n]; [discriminate |]). discriminate.
Qed.

Lemma findLeast_not_undef (w : list Z) : findLeast w <> Undefined.
Proof.
  unfold findLeast. destruct (findLeast_loop w 0 42 None) as [n |]; [| discriminate].
  do 7 (destruct n as [| n]; [discriminate |]). discriminate.
Qed.

Lemma initial_weights (n : nat) (i : nat) :
  (n < 7)%nat -> (i < 9)%nat ->
  <[n := 0]> initializeNodeWeight !!! i = if decide (n = i) then 0 else 42.
Proof.
  intros Hn Hi. rewrite list_lookup_total_insert.
  rewrite length_initializeNodeWeight.
  destruct (decide (n = i /\ (n < 9)%nat)) as [[-> _] | Hne].
  - destruct (decide (i = i)); [reflexivity | contradiction].
  - destruct (decide (n = i)) as [-> | _]; [exfalso; apply Hne; split; [reflexivity | lia] |].
    do 9 (destruct i as [| i]; [reflexivity |]). lia.
Qed.

Section Unreachable.

Variables (g : list edgeWeight) (src tgt : ascii).
Hypothesis Hwf : wf_graph g.
Hypothesis Hunreach : forall l, ~ path g src tgt l.

Lemma findRoute_loop_unreachable (fuel : nat) (S : list ascii) (w : list Z) (c : ascii) (num : nat) :
  inv_search g src S w c num -> (8 <= length S + fuel)%nat ->
  findRoute_loop fuel (markVisited S g) w c num tgt = Uninit.
Proof.
  revert S w c num. induction fuel as [| f IH]; intros S w c num Hinv Hfuel.
  - exfalso. destruct Hinv as (_ & _ & _ & _ & _ & _ & _ & HS & _ & Hnd).
    assert (Hsub : forall s, In s S -> In s alphabet).
    { intros s Hs. destruct (HS s Hs) as (i & Hi & _). apply (nodeToNumber_inv s i Hi). }
    pose proof (alphabet_nodup_length S Hnd Hsub). lia.
  - rewrite findRoute_loop_S.
    destruct Hinv as (Hnum & Hlen & Hhigh & Hnn & Hreach & Hc & Hd42 & HS & HcS & Hnd).
    destruct (ascii_dec c tgt) as [-> | Hne].
    { exfalso. destruct Hc as [l Hl]. exact (Hunreach l Hl). }
    destruct (nodeToNumber_inv c num Hnum) as (Hcalph & Hnumlt & _).
    assert (Hwnum : 0 <= w !!! num) by (apply Hnn; lia).
    destruct (findNeighbors_spec (markVisited S g) w c num) as (w1 & Hrun & Hlen1 & Hnum1 & Hspec).
    { rewrite length_markVisited. exact (proj1 Hwf). }
    { exact Hwnum. }
    { intros e He Hi. destruct (markVisited_from S g c e Hcalph He Hi) as [Heg _].
      destruct (proj2 Hwf e Heg) as (_ & Ht & Hw & Hwmax).
      unfold INT_MAX, INFINITY_APPROX in *. split; [| split]; [lia | lia | exact Ht]. }
    { exact Hlen. }
    rewrite Hrun, bind_Ok. cbv zeta.
    rewrite (removeVertex_markVisited S g c Hcalph).
    set (w2 := <[num := 0]> w1).
    assert (Hw2num : w2 !!! num = 0) by (apply list_lookup_total_insert_eq; lia).
    assert (Hw2ne : forall j, j <> num -> w2 !!! j = w1 !!! j)
      by (intros j Hj; apply list_lookup_total_insert_ne; lia).
    (* an entry lowered by the relaxation comes from an edge of [g] leaving [c] *)
    assert (Hwhy : forall j, w1 !!! j = w !!! j \/
              exists e, In e g /\ initial e = c /\ nodeToNumber (terminal e) = Ok j /\
                        w1 !!! j = weight e + w !!! num).
    { intros j. destruct (Hspec j) as (_ & [Heq | (e & He & Hi & Ht & Hv)] & _); [left; exact Heq |].
      right. exists e. destruct (markVisited_from S g c e Hcalph He Hi) as [Heg _]. auto. }
    assert (Hnn2 : forall j, (j < 9)%nat -> 0 <= w2 !!! j).
    { intros j Hj. destruct (decide (j = num)) as [-> | Hjn]; [lia |].
      rewrite Hw2ne by exact Hjn.
      destruct (Hwhy j) as [-> | (e & He & _ & _ & ->)]; [apply Hnn; exact Hj |].
      destruct (proj2 Hwf e He) as (_ & _ & Hw & _). lia. }
    assert (Hreach2 : forall k i, nodeToNumber k = Ok i -> w2 !!! i < 42 -> reachable g src k).
    { intros k i Hk Hlt. destruct (decide (i = num)) as [-> | Hin].
      - rewrite (nodeToNumber_inj k c num Hk Hnum). exact Hc.
      - rewrite Hw2ne in Hlt by exact Hin.
        destruct (Hwhy i) as [Heq | (e & He & Hi & Ht & _)].
        + apply (Hreach k i Hk). lia.
        + rewrite <- (nodeToNumber_inj _ _ i Ht Hk).
          destruct Hc as [l Hl]. exists (l + weight e). exact (path_snoc g src c l e Hl He Hi). }
    destruct (findLeast w2) as [c' | | |] eqn:Hfl;
      [| reflexivity | exfalso; exact (findLeast_not_undef _ Hfl)
       | exfalso; exact (findLeast_not_fuel _ Hfl)].
    rewrite bind_Ok.
    destruct (findLeast_ok w2 c' Hfl) as (i' & Hi' & Hc'alph & Hi'lt & Hw2i'0 & Hw2i'42 & _).
    rewrite Hi', bind_Ok.
    assert (HS2 : forall s, In s (c :: S) -> exists i, nodeToNumber s = Ok i /\ w2 !!! i = 0).
    { intros s [<- | Hs]; [exists num; split; assumption |].
      destruct (HS s Hs) as (i & Hi & Hwi). exists i. split; [exact Hi |].
      destruct (decide (i = num)) as [-> | Hin]; [exact Hw2num |].
      destruct (nodeToNumber_inv s i Hi) as (_ & Hilt & _).
      pose proof (Hnn2 i ltac:(lia)) as Hge.
      rewrite Hw2ne in Hge |- * by exact Hin.
      destruct (Hspec i) as (Hle & _ & _). lia. }
    apply IH; [| simpl; lia].
    split; [exact Hi' |].
    split; [unfold w2; rewrite length_insert; lia |].
    split.
    { intros j Hj. rewrite Hw2ne by lia.
      destruct (Hwhy j) as [-> | (e & _ & _ & Ht & _)]; [apply Hhigh; exact Hj |].
      destruct (nodeToNumber_inv _ _ Ht) as (_ & Hlt & _). lia. }
    split; [exact Hnn2 |]. split; [exact Hreach2 |].
    split; [exact (Hreach2 c' i' Hi' Hw2i'42) |]. split; [exact Hw2i'42 |].
    split; [exact HS2 |].
    split.
    { intros Hin. destruct (HS2 c' Hin) as (j & Hj & Hw2j).
      rewrite Hi' in Hj. injection Hj as <-. contradiction. }
    constructor; assumption.
Qed.

End Unreachable.

Lemma inv_search_start (g : list edgeWeight) (src : ascii) (n : nat) :
  nodeToNumber src = Ok n ->
  inv_search g src [] (<[n := 0]> initializeNodeWeight) src n.
Proof.
  intros Hn. destruct (nodeToNumber_inv src n Hn) as (_ & Hnlt & _).
  split; [exact Hn |].
  split; [rewrite length_insert; reflexivity |].
  split; [intros i Hi; rewrite initial_weights by lia; destruct decide; [lia | reflexivity] |].
  split; [intros i Hi; rewrite initial_weights by lia; destruct decide; lia |].
  split.
  { intros k i Hk Hlt. destruct (nodeToNumber_inv k i Hk) as (_ & Hilt & _).
    rewrite initial_weights in Hlt by lia.
    destruct (decide (n = i)) as [-> | _]; [| unfold INFINITY_APPROX in Hlt; lia].
    rewrite (nodeToNumber_inj k src i Hk Hn). exists 0. apply path_nil. }
  split; [exists 0; apply path_nil |].
  split; [rewrite list_lookup_total_insert_eq; [lia | rewrite length_initializeNodeWeight; lia] |].
  split; [intros s [] |]. split; [intros [] | constructor].
Qed.

(** C2 (as the code does it): on a well-formed graph ([VERTEX_COUNT]
    edges between letters of the alphabet, weights from 0 to
    [INT_MAX - INFINITY_APPROX]), when [to] cannot
    be reached from [from], [findRoute] reports no error: its loop runs
    without exhausting [LOOP_FUEL] rounds until [findLeast] finds no
    entry and reads its uninitialized [node], undefined behaviour; no
    distance is ever returned. *)
Theorem findRoute_unreachable_uninit (g : list edgeWeight) (from to : ascii) :
  wf_graph g -> In from alphabet -> (forall l, ~ path g from to l) ->
  findRoute g from to = Uninit.
Proof.
  intros Hwf Hfrom Hun. destruct (nodeToNumber_ok from Hfrom) as (n & Hn & _).
  rewrite (findRoute_unfold _ _ _ n Hn).
  rewrite <- (markVisited_nil g).
  rewrite (findRoute_loop_unreachable g from to Hwf Hun LOOP_FUEL [] _ from n
             (inv_search_start g from n Hn)); [reflexivity |].
  unfold LOOP_FUEL, VERTEX_COUNT. simpl. lia.
Qed.

Lemma path_closed (g : list edgeWeight) (T : list ascii) (u v : ascii) (l : Z) :
  closedb g T = true -> path g u v l -> In u T -> In v T.
Proof.
  intros Hcl Hp. induction Hp as [u | e v l He Hp IH]; intros Hu; [exact Hu |].
  apply IH. unfold closedb in Hcl. rewrite forallb_forall in Hcl.
  specialize (Hcl e He).
  destruct (in_dec ascii_dec (initial e) T); [| contradiction].
  destruct (in_dec ascii_dec (terminal e) T); [assumption | discriminate].
Qed.

Lemma edges_okb_sound (minw : Z) (g : list edgeWeight) :
  edges_okb minw g = true -> edges_ok minw g.
Proof.
  unfold edges_okb. rewrite forallb_forall. intros H e He.
  specialize (H e He).
  destruct (in_dec ascii_dec (initial e) alphabet); [| discriminate].
  destruct (in_dec ascii_dec (terminal e) alphabet); [| discriminate].
  simpl in H. apply andb_prop in H as [H1 H2].
  apply Z.leb_le in H1. apply Z.leb_le in H2. auto.
Qed.

Lemma wf_graphb_sound (g : list edgeWeight) :
  length g = VERTEX_COUNT -> edges_okb 0 g = true -> wf_graph g.
Proof. intros Hl H. split; [exact Hl | exact (edges_okb_sound 0 g H)]. Qed.

Lemma pos_graphb_sound (g : list edgeWeight) :
  length g = VERTEX_COUNT -> edges_okb 1 g = true -> pos_graph g.
Proof. intros Hl H. split; [exact Hl | exact (edges_okb_sound 1 g H)]. Qed.

Lemma findRoute_unreachable_uninit_witness :
  wf_graph split_maze /\ In "E"%char alphabet /\ (forall l, ~ path split_maze "E"%char "M"%char l) /\
  findRoute split_maze "E"%char "M"%char = Uninit.
Proof.
  assert (Hwf : wf_graph split_maze) by (apply wf_graphb_sound; vm_compute; reflexivity).
  assert (HE : In "E"%char alphabet) by (simpl; tauto).
  assert (Hun : forall l, ~ path split_maze "E"%char "M"%char l).
  { intros l Hp.
    assert (HM : In "M"%char ["E"; "N"; "F"; "A"]%char).
    { apply (path_closed split_maze _ "E"%char _ l); [vm_compute; reflexivity | exact Hp | simpl; tauto]. }
    simpl in HM. intuition discriminate. }
  split; [exact Hwf |]. split; [exact HE |]. split; [exact Hun |].
  apply findRoute_unreachable_uninit; assumption.
Defined.

(** C2 fails as stated: on the disconnected maze the search reports no
    [Unreachable] error but ends in the uninitialized read of [findLeast]. *)
Lemma findRoute_split_maze_no_error :
  length split_maze = VERTEX_COUNT /\ findRoute split_maze "E"%char "M"%char = Uninit.
Proof. split; vm_compute; reflexivity. Qed.

Lemma pos_graph_wf (g : list edgeWeight) : pos_graph g -> wf_graph g.
Proof.
  intros [Hl H]. split; [exact Hl |]. intros e He.
  destruct (H e He) as (? & ? & ? & ?). repeat split; auto; lia.
Qed.

Section Dijkstra.

Variables (g : list edgeWeight) (src tgt : ascii).
Hypothesis Hpos : pos_graph g.

(** Every path to a node outside [S] is at least as long as the weight
    of the current node. *)
Lemma inv_dijkstra_lower_bound (S : list ascii) (D : ascii -> Z) (w : list Z) (c : ascii) (num : nat)
    (k : ascii) (l : Z) :
  inv_dijkstra g src tgt S D w c num -> ~ In k S -> path g src k l -> w !!! num <= l.
Proof.
  intros Hinv Hk Hp.
  destruct Hinv as (Hnum & _ & _ & _ & _ & _ & _ & _ & Hsrc & Hmin & _ & _ & HF & HG).
  pose proof (pos_graph_wf g Hpos) as Hwf.
  destruct Hsrc as [Hsrc | [_ H0]]; [| rewrite H0; exact (path_nonneg g _ _ _ Hwf Hp)].
  destruct (path_exit g S src k l Hwf Hp Hsrc Hk) as (e & l1 & He & Hi & Ht & Hp1 & Hle).
  destruct (proj2 Hwf e He) as (_ & Htalph & _).
  destruct (nodeToNumber_ok _ Htalph) as (j & Hj & _).
  pose proof (HF (initial e) e j Hi He eq_refl Ht Hj).
  pose proof (HG (initial e) l1 Hi Hp1).
  destruct (Hmin (terminal e) j Hj Ht) as (Hm & _ & _).
  lia.
Qed.

Lemma findRoute_loop_shortest (fuel : nat) (S : list ascii) (D : ascii -> Z) (w : list Z)
    (c : ascii) (num : nat) (d0 : Z) :
  inv_dijkstra g src tgt S D w c num -> (8 <= length S + fuel)%nat ->
  path g src tgt d0 -> d0 < 42 ->
  exists g' w' num',
    findRoute_loop fuel (markVisited S g) w c num tgt = Ok (g', w', tgt, num') /\
    path g src tgt (w' !!! num') /\ forall l, path g src tgt l -> w' !!! num' <= l.
Proof.
  revert S D w c num. induction fuel as [| f IH]; intros S D w c num Hinv Hfuel Hd0 Hd0lt.
  - exfalso. destruct Hinv as (_ & _ & _ & _ & HS & _ & Hnd & _).
    assert (Hsub : forall s, In s S -> In s alphabet).
    { intros s Hs. destruct (HS s Hs) as (i & Hi & _). apply (nodeToNumber_inv s i Hi). }
    pose proof (alphabet_nodup_length S Hnd Hsub). lia.
  - rewrite findRoute_loop_S.
    pose proof Hinv as Hinv0.
    destruct Hinv as (Hnum & Hlen & Hhigh & Hnn & HS & HcS & Hnd & HtS & Hsrc & Hmin & HE & Hc42 & HF & HG).
    destruct (nodeToNumber_inv c num Hnum) as (Hcalph & Hnumlt & _).
    destruct (ascii_dec c tgt) as [Heq | Hne].
    { subst c. exists (markVisited S g), w, num. split; [reflexivity |].
      split; [exact (HE tgt num Hnum HcS Hc42) |].
      intros l Hl. exact (inv_dijkstra_lower_bound S D w tgt num tgt l Hinv0 HcS Hl). }
    pose proof (pos_graph_wf g Hpos) as Hwf.
    destruct (findNeighbors_spec (markVisited S g) w c num) as (w1 & Hrun & Hlen1 & Hnum1 & Hspec).
    { rewrite length_markVisited. exact (proj1 Hwf). }
    { apply Hnn; lia. }
    { intros e He Hi. destruct (markVisited_from S g c e Hcalph He Hi) as [Heg _].
      destruct (proj2 Hwf e Heg) as (_ & Ht & Hw & Hwmax).
      unfold INT_MAX, INFINITY_APPROX in *. split; [| split]; [lia | lia | exact Ht]. }
    { exact Hlen. }
    rewrite Hrun, bind_Ok. cbv zeta.
    rewrite (removeVertex_markVisited S g c Hcalph).
    set (w2 := <[num := 0]> w1).
    assert (Hw2num : w2 !!! num = 0) by (apply list_lookup_total_insert_eq; lia).
    assert (Hw2ne : forall j, j <> num -> w2 !!! j = w1 !!! j)
      by (intros j Hj; apply list_lookup_total_insert_ne; lia).
    assert (Hwnum : 0 <= w !!! num) by (apply Hnn; lia).
    assert (Hwhy : forall j, w1 !!! j = w !!! j \/
              exists e, In e g /\ initial e = c /\ nodeToNumber (terminal e) = Ok j /\
                        w1 !!! j = weight e + w !!! num).
    { intros j. destruct (Hspec j) as (_ & [Heq | (e & He & Hi & Ht & Hv)] & _); [left; exact Heq |].
      right. exists e. destruct (markVisited_from S g c e Hcalph He Hi) as [Heg _]. auto. }
    assert (Hall : forall e j, In e g -> initial e = c -> ~ In (terminal e) S ->
              nodeToNumber (terminal e) = Ok j -> w1 !!! j <= weight e + w !!! num).
    { intros e j He Hi Ht Hj. destruct (Hspec j) as (_ & _ & Hrel).
      apply Hrel; [apply markVisited_keeps; assumption | exact Hi | exact Hj]. }
    assert (Hother : forall k i, nodeToNumber k = Ok i -> k <> c -> w2 !!! i = w1 !!! i).
    { intros k i Hk Hkc. apply Hw2ne. intros ->. apply Hkc.
      exact (nodeToNumber_inj k c num Hk Hnum). }
    set (D' := fun u => if ascii_dec u c then w !!! num else D u).
    assert (HD'c : D' c = w !!! num) by (unfold D'; destruct ascii_dec; [reflexivity | contradiction]).
    assert (HD'S : forall u, In u S -> D' u = D u).
    { intros u Hu. unfold D'. destruct ascii_dec as [-> |]; [contradiction | reflexivity]. }
    assert (Hlen2 : length w2 = 9%nat) by (unfold w2; rewrite length_insert; lia).
    assert (Hhigh2 : forall i, (7 <= i < 9)%nat -> w2 !!! i = 42).
    { intros j Hj. rewrite Hw2ne by lia.
      destruct (Hwhy j) as [-> | (e & _ & _ & Ht & _)]; [apply Hhigh; exact Hj |].
      destruct (nodeToNumber_inv _ _ Ht) as (_ & Hlt & _). lia. }
    assert (Hnn2 : forall j, (j < 9)%nat -> 0 <= w2 !!! j).
    { intros j Hj. destruct (decide (j = num)) as [-> | Hjn]; [lia |].
      rewrite Hw2ne by exact Hjn.
      destruct (Hwhy j) as [-> | (e & He & _ & _ & ->)]; [apply Hnn; exact Hj |].
      destruct (proj2 Hpos e He) as (_ & _ & Hw & _). lia. }
    assert (HS2 : forall s, In s (c :: S) -> exists i, nodeToNumber s = Ok i /\ w2 !!! i = 0).
    { intros s [<- | Hs]; [exists num; split; assumption |].
      destruct (HS s Hs) as (i & Hi & Hwi). exists i. split; [exact Hi |].
      rewrite (Hother s i Hi) by (intros ->; contradiction).
      destruct (Hspec i) as (Hle & _ & _).
      destruct (Hwhy i) as [Heq | (e & He & _ & _ & Hv)]; [lia |].
      destruct (proj2 Hpos e He) as (_ & _ & Hw & _). lia. }
    assert (Hmin2 : forall k i, nodeToNumber k = Ok i -> ~ In k (c :: S) ->
              w2 !!! i <= 42 /\ 1 <= w2 !!! i).
    { intros k i Hk Hkn.
      assert (Hkc : k <> c) by (intros ->; apply Hkn; left; reflexivity).
      assert (HkS : ~ In k S) by (intros Hin; apply Hkn; right; exact Hin).
      rewrite (Hother k i Hk Hkc).
      destruct (Hmin k i Hk HkS) as (_ & Hle42 & Hge1).
      destruct (Hspec i) as (Hle & _ & _).
      destruct (Hwhy i) as [Heq | (e & He & _ & _ & Hv)].
      - specialize (Hge1 Hkc). lia.
      - destruct (proj2 Hpos e He) as (_ & _ & Hw & _). lia. }
    assert (HE2 : forall k i, nodeToNumber k = Ok i -> ~ In k (c :: S) -> w2 !!! i < 42 ->
              path g src k (w2 !!! i)).
    { intros k i Hk Hkn Hlt.
      assert (Hkc : k <> c) by (intros ->; apply Hkn; left; reflexivity).
      assert (HkS : ~ In k S) by (intros Hin; apply Hkn; right; exact Hin).
      rewrite (Hother k i Hk Hkc) in Hlt |- *.
      destruct (Hwhy i) as [Heq | (e & He & Hi & Ht & Hv)].
      - rewrite Heq in Hlt |- *. apply HE; assumption.
      - rewrite Hv. rewrite <- (nodeToNumber_inj _ _ i Ht Hk).
        rewrite Z.add_comm.
        exact (path_snoc g src c (w !!! num) e (HE c num Hnum HcS Hc42) He Hi). }
    assert (HF2 : forall u e i, In u (c :: S) -> In e g -> initial e = u ->
              ~ In (terminal e) (c :: S) -> nodeToNumber (terminal e) = Ok i ->
              w2 !!! i <= D' u + weight e).
    { intros u e i Hu He Hi Ht Hj.
      assert (Htc : terminal e <> c) by (intros Heq; apply Ht; left; symmetry; exact Heq).
      assert (HtS' : ~ In (terminal e) S) by (intros Hin; apply Ht; right; exact Hin).
      rewrite (Hother _ i Hj Htc).
      destruct Hu as [<- | Hu].
      - rewrite HD'c. pose proof (Hall e i He Hi HtS' Hj). lia.
      - rewrite (HD'S u Hu). destruct (Hspec i) as (Hle & _ & _).
        pose proof (HF u e i Hu He Hi HtS' Hj). lia. }
    assert (HG2 : forall u l, In u (c :: S) -> path g src u l -> D' u <= l).
    { intros u l [<- | Hu] Hp.
      - rewrite HD'c. exact (inv_dijkstra_lower_bound S D w c num c l Hinv0 HcS Hp).
      - rewrite (HD'S u Hu). exact (HG u l Hu Hp). }
    assert (Hsrc2 : In src (c :: S)) by (destruct Hsrc as [H | [-> _]]; [right | left]; auto).
    assert (Htgt2 : ~ In tgt (c :: S)) by (intros [Heq | Hin]; [exact (Hne Heq) | exact (HtS Hin)]).
    destruct (findLeast_some w2) as [c' Hfl].
    { intros i Hi. rewrite Hlen2 in Hi. rewrite Hhigh2 by lia. right. lia. }
    { destruct (path_exit g (c :: S) src tgt d0 Hwf Hd0 Hsrc2 Htgt2)
        as (e & l1 & He & Hi & Ht & Hp1 & Hle).
      destruct (proj2 Hwf e He) as (_ & Htalph & _).
      destruct (nodeToNumber_ok _ Htalph) as (j & Hj & Hjlt).
      pose proof (HF2 (initial e) e j Hi He eq_refl Ht Hj).
      pose proof (HG2 (initial e) l1 Hi Hp1).
      destruct (Hmin2 (terminal e) j Hj Ht).
      exists j. split; [lia |]. split; lia. }
    rewrite Hfl, bind_Ok.
    destruct (findLeast_ok w2 c' Hfl) as (i' & Hi' & Hc'alph & Hi'lt & Hw2i'0 & Hw2i'42 & Hleast).
    rewrite Hi', bind_Ok.
    apply (IH (c :: S) D' w2 c' i'); [| simpl; lia | exact Hd0 | exact Hd0lt].
    split; [exact Hi' |]. split; [exact Hlen2 |]. split; [exact Hhigh2 |].
    split; [exact Hnn2 |]. split; [exact HS2 |].
    split.
    { intros Hin. destruct (HS2 c' Hin) as (j & Hj & Hw2j).
      rewrite Hi' in Hj. injection Hj as <-. contradiction. }
    split; [constructor; assumption |]. split; [exact Htgt2 |].
    split; [left; exact Hsrc2 |].
    split.
    { intros k i Hk Hkn. destruct (Hmin2 k i Hk Hkn) as [H42 H1].
      destruct (nodeToNumber_inv k i Hk) as (_ & Hilt & _).
      split; [apply Hleast; lia |]. split; [exact H42 | intros _; exact H1]. }
    split; [exact HE2 |]. split; [exact Hw2i'42 |].
    split; [exact HF2 | exact HG2].
Qed.

End Dijkstra.

Lemma inv_dijkstra_start (g : list edgeWeight) (src tgt : ascii) (n : nat) :
  nodeToNumber src = Ok n ->
  inv_dijkstra g src tgt [] (fun _ => 0) (<[n := 0]> initializeNodeWeight) src n.
Proof.
  intros Hn. destruct (nodeToNumber_inv src n Hn) as (_ & Hnlt & _).
  assert (H0 : <[n := 0]> initializeNodeWeight !!! n = 0)
    by (rewrite initial_weights by lia; destruct decide; [reflexivity | contradiction]).
  split; [exact Hn |].
  split; [rewrite length_insert; reflexivity |].
  split; [intros i Hi; rewrite initial_weights by lia; destruct decide; [lia | reflexivity] |].
  split; [intros i Hi; rewrite initial_weights by lia; destruct decide; lia |].
  split; [intros s [] |]. split; [intros [] |]. split; [constructor |]. split; [intros [] |].
  split; [right; split; [reflexivity | exact H0] |].
  split.
  { intros k i Hk _. destruct (nodeToNumber_inv k i Hk) as (_ & Hilt & _).
    rewrite H0, initial_weights by lia.
    destruct (decide (n = i)) as [-> | Hni].
    - split; [lia |]. split; [lia |]. intros Hks. exfalso. apply Hks.
      exact (nodeToNumber_inj k src i Hk Hn).
    - split; [lia |]. split; [lia | intros _; lia]. }
  split.
  { intros k i Hk _ Hlt. destruct (nodeToNumber_inv k i Hk) as (_ & Hilt & _).
    rewrite initial_weights in Hlt |- * by lia.
    destruct (decide (n = i)) as [-> | _]; [| unfold INFINITY_APPROX in Hlt; lia].
    rewrite (nodeToNumber_inj k src i Hk Hn). apply path_nil. }
  split; [rewrite H0; lia |].
  split; [intros u e i [] | intros u l []].
Qed.

(** C1 (as the code does it): for a graph array of [VERTEX_COUNT] edges
    joining letters of the alphabet with positive weights of at most
    [INT_MAX - INFINITY_APPROX] (so that no sum of [findNeighbors]
    overflows an [int]), and nodes [from], [to] such that [to]
    is reachable from [from] by a path of total weight below
    [INFINITY_APPROX] = 42 (the sentinel the code takes to exceed every
    path cost), [findRoute] ends at [to] and returns the least total
    weight of a directed path from [from] to [to]. *)
Theorem findRoute_shortest (g : list edgeWeight) (from to : ascii) (d0 : Z) :
  pos_graph g -> In from alphabet -> path g from to d0 -> d0 < INFINITY_APPROX ->
  exists d g', findRoute g from to = Ok (d, to, g') /\
    path g from to d /\ forall l, path g from to l -> d <= l.
Proof.
  intros Hpos Hfrom Hp Hlt. destruct (nodeToNumber_ok from Hfrom) as (n & Hn & _).
  rewrite (findRoute_unfold _ _ _ n Hn).
  destruct (findRoute_loop_shortest g from to Hpos LOOP_FUEL [] (fun _ => 0) _ from n d0
              (inv_dijkstra_start g from to n Hn))
    as (g' & w' & num' & Hrun & Hpath & Hopt);
    [unfold LOOP_FUEL, VERTEX_COUNT; simpl; lia | exact Hp | unfold INFINITY_APPROX in Hlt; exact Hlt |].
  rewrite markVisited_nil in Hrun. rewrite Hrun, bind_Ok.
  exists (w' !!! num'), g'. split; [reflexivity |]. split; assumption.
Qed.

Lemma findRoute_shortest_witness :
  pos_graph test_maze /\ In "E"%char alphabet /\ path test_maze "E"%char "M"%char 5 /\
  5 < INFINITY_APPROX /\
  exists d g', findRoute test_maze "E"%char "M"%char = Ok (d, "M"%char, g') /\
    path test_maze "E"%char "M"%char d /\
    forall l, path test_maze "E"%char "M"%char l -> d <= l.
Proof.
  assert (Hpos : pos_graph test_maze) by (apply pos_graphb_sound; vm_compute; reflexivity).
  assert (HE : In "E"%char alphabet) by (simpl; tauto).
  assert (Hp : path test_maze "E"%char "M"%char 5).
  { change 5 with (weight {| initial := "E"; terminal := "N"; weight := 1 |} +
                   (weight {| initial := "N"; terminal := "W"; weight := 2 |} +
                    (weight {| initial := "W"; terminal := "B"; weight := 1 |} +
                     (weight {| initial := "B"; terminal := "M"; weight := 1 |} + 0)))).
    edge_step "E"%char "N"%char 1; edge_step "N"%char "W"%char 2; edge_step "W"%char "B"%char 1; edge_step "B"%char "M"%char 1.
    apply path_nil. }
  assert (Hlt : 5 < INFINITY_APPROX) by (unfold INFINITY_APPROX; lia).
  split; [exact Hpos |]. split; [exact HE |]. split; [exact Hp |]. split; [exact Hlt |].
  exact (findRoute_shortest test_maze "E"%char "M"%char 5 Hpos HE Hp Hlt).
Defined.

(** C1 fails as stated: M is reachable from E in [heavy_maze] (at total
    weight 45), yet [findRoute] never settles M and ends in the
    uninitialized read of [findLeast] instead of returning 45. *)
Lemma findRoute_heavy_maze_no_distance :
  length heavy_maze = VERTEX_COUNT /\ path heavy_maze "E"%char "M"%char 45 /\
  findRoute heavy_maze "E"%char "M"%char = Uninit.
Proof.
  split; [reflexivity |]. split; [| vm_compute; reflexivity].
  change 45 with (weight {| initial := "E"; terminal := "N"; weight := 20 |} +
                  (weight {| initial := "N"; terminal := "F"; weight := 20 |} +
                   (weight {| initial := "F"; terminal := "M"; weight := 5 |} + 0))).
  edge_step "E"%char "N"%char 20; edge_step "N"%char "F"%char 20; edge_step "F"%char "M"%char 5. apply path_nil.
Qed.

(** The visited mark 0 of [findRoute] also hides a node reached at
    distance 0: behind a zero-weight edge, F is never selected. *)
Example findRoute_zero_weight_edge :
  length zero_maze = VERTEX_COUNT /\ findRoute zero_maze "E"%char "F"%char = Uninit.
Proof. split; vm_compute; reflexivity. Qed.

(** Without the bound on the weights, the sum of [findNeighbors] leaves
    the [int] range: in [overflow_maze], relaxing N to F after N was
    reached at distance 1 adds [INT_MAX + 1], signed overflow. *)
Example findRoute_overflow_maze :
  length overflow_maze = VERTEX_COUNT /\ findRoute overflow_maze "E"%char "F"%char = Undefined.
Proof. split; vm_compute; reflexivity. Qed.

(* ------------------------------------------------------------------ *)
(** ** [findRoute] on any graph *)

Lemma nodeToNumber_not_fuel (c : ascii) : nodeToNumber c <> OutOfFuel.
Proof. unfold nodeToNumber. repeat destruct ascii_dec; discriminate. Qed.

Lemma nodeToNumber_not_undef (c : ascii) : nodeToNumber c <> Undefined.
Proof. unfold nodeToNumber. repeat destruct ascii_dec; discriminate. Qed.

Lemma findRoute_loop_target (fuel : nat) (gr : list edgeWeight) (w : list Z) (c : ascii)
    (num : nat) (tgt : ascii) (g' : list edgeWeight) (w' : list Z) (n : ascii) (num' : nat) :
  findRoute_loop fuel gr w c num tgt = Ok (g', w', n, num') -> n = tgt.
Proof.
  revert gr w c num. induction fuel as [| f IH]; intros gr w c num H; [discriminate |].
  rewrite findRoute_loop_S in H.
  destruct (ascii_dec c tgt) as [Heq | Hne]; [injection H as _ _ <- _; exact Heq |].
  destruct (findNeighbors gr w c num) as [w1 | | |]; [rewrite bind_Ok in H | discriminate | discriminate | discriminate].
  cbv zeta in H.
  destruct (findLeast (<[num := 0]> w1)) as [c' | | |]; [rewrite bind_Ok in H | discriminate | discriminate | discriminate].
  destruct (nodeToNumber c') as [num1 | | |]; [rewrite bind_Ok in H | discriminate | discriminate | discriminate].
  exact (IH _ _ _ _ H).
Qed.

Lemma findRoute_ok_target (g : list edgeWeight) (from to loc : ascii) (d : Z)
    (g' : list edgeWeight) :
  findRoute g from to = Ok (d, loc, g') -> loc = to.
Proof.
  unfold findRoute. intros H.
  destruct (nodeToNumber from) as [n | | |]; [rewrite bind_Ok in H | discriminate | discriminate | discriminate].
  destruct (findRoute_loop LOOP_FUEL g _ from n to) as [[[[g1 w1] c1] n1] | | |] eqn:Hrun;
    [rewrite bind_Ok in H | discriminate | discriminate | discriminate].
  injection H as _ <- _. exact (findRoute_loop_target _ _ _ _ _ _ _ _ _ _ Hrun).
Qed.

(** [findRoute] only ever stops at its target: whenever it returns, the
    new [currentLocation] is [currentState], on any graph. *)
Theorem findRoute_ends_at_target (g : list edgeWeight) (from to loc : ascii) (d : Z)
    (g' : list edgeWeight) :
  findRoute g from to = Ok (d, loc, g') -> loc = to.
Proof.
  intros H. destruct (nodeToNumber from) as [n | | |] eqn:Hn.
  2: unfold findRoute in H; rewrite Hn, bind_Uninit in H; discriminate.
  2: exfalso; exact (nodeToNumber_not_undef from Hn).
  2: exfalso; exact (nodeToNumber_not_fuel from Hn).
  rewrite (findRoute_unfold _ _ _ n Hn) in H.
  destruct (findRoute_loop LOOP_FUEL g _ from n to) as [[[[g1 w1] c1] n1] | | |] eqn:Hrun;
    [rewrite bind_Ok in H | discriminate | discriminate | discriminate].
  injection H as _ <- _. exact (findRoute_loop_target _ _ _ _ _ _ _ _ _ _ Hrun).
Qed.

Lemma findRoute_ends_at_target_witness :
  findRoute test_maze "E"%char "W"%char = Ok (3, "W"%char, markVisited ["E"; "N"; "F"; "A"]%char test_maze) /\
  "W"%char = "W"%char.
Proof.
  assert (H : findRoute test_maze "E"%char "W"%char = Ok (3, "W"%char, markVisited ["E"; "N"; "F"; "A"]%char test_maze))
    by (vm_compute; reflexivity).
  split; [exact H | exact (findRoute_ends_at_target _ _ _ _ _ _ H)].
Defined.

Section Sound.

Variables (g : list edgeWeight) (src tgt : ascii).
Hypothesis Hwf : wf_graph g.

Lemma findRoute_loop_sound (fuel : nat) (S : list ascii) (w : list Z) (c : ascii) (num : nat) :
  inv_sound g src S w c num -> (8 <= length S + fuel)%nat ->
  loop_outcome g src (findRoute_loop fuel (markVisited S g) w c num tgt).
Proof.
  revert S w c num. induction fuel as [| f IH]; intros S w c num Hinv Hfuel.
  - exfalso. destruct Hinv as (_ & _ & _ & _ & _ & _ & _ & HS & _ & Hnd).
    assert (Hsub : forall s, In s S -> In s alphabet).
    { intros s Hs. destruct (HS s Hs) as (i & Hi & _). apply (nodeToNumber_inv s i Hi). }
    pose proof (alphabet_nodup_length S Hnd Hsub). lia.
  - rewrite findRoute_loop_S.
    destruct Hinv as (Hnum & Hlen & Hhigh & Hnn & Hpaths & Hc & Hc42 & HS & HcS & Hnd).
    destruct (nodeToNumber_inv c num Hnum) as (Hcalph & Hnumlt & _).
    destruct (ascii_dec c tgt) as [_ | Hne].
    { split; [exact Hc |]. split; [apply Hnn; lia | exact Hc42]. }
    destruct (findNeighbors_spec (markVisited S g) w c num) as (w1 & Hrun & Hlen1 & Hnum1 & Hspec).
    { rewrite length_markVisited. exact (proj1 Hwf). }
    { apply Hnn; lia. }
    { intros e He Hi. destruct (markVisited_from S g c e Hcalph He Hi) as [Heg _].
      destruct (proj2 Hwf e Heg) as (_ & Ht & Hw & Hwmax).
      unfold INT_MAX, INFINITY_APPROX in *. split; [| split]; [lia | lia | exact Ht]. }
    { exact Hlen. }
    rewrite Hrun, bind_Ok. cbv zeta.
    rewrite (removeVertex_markVisited S g c Hcalph).
    set (w2 := <[num := 0]> w1).
    assert (Hw2num : w2 !!! num = 0) by (apply list_lookup_total_insert_eq; lia).
    assert (Hw2ne : forall j, j <> num -> w2 !!! j = w1 !!! j)
      by (intros j Hj; apply list_lookup_total_insert_ne; lia).
    assert (Hwnum : 0 <= w !!! num) by (apply Hnn; lia).
    assert (Hwhy : forall j, w1 !!! j = w !!! j \/
              exists e, In e g /\ initial e = c /\ nodeToNumber (terminal e) = Ok j /\
                        w1 !!! j = weight e + w !!! num).
    { intros j. destruct (Hspec j) as (_ & [Heq | (e & He & Hi & Ht & Hv)] & _); [left; exact Heq |].
      right. exists e. destruct (markVisited_from S g c e Hcalph He Hi) as [Heg _]. auto. }
    assert (Hnn2 : forall j, (j < 9)%nat -> 0 <= w2 !!! j).
    { intros j Hj. destruct (decide (j = num)) as [-> | Hjn]; [lia |].
      rewrite Hw2ne by exact Hjn.
      destruct (Hwhy j) as [-> | (e & He & _ & _ & ->)]; [apply Hnn; exact Hj |].
      destruct (proj2 Hwf e He) as (_ & _ & Hw & _). lia. }
    assert (Hpaths2 : forall k i, nodeToNumber k = Ok i -> w2 !!! i <> 0 -> w2 !!! i < 42 ->
                                  path g src k (w2 !!! i)).
    { intros k i Hk H0 Hlt. destruct (decide (i = num)) as [-> | Hin]; [contradiction |].
      rewrite Hw2ne in H0, Hlt |- * by exact Hin.
      destruct (Hwhy i) as [Heq | (e & He & Hi & Ht & Hv)].
      + rewrite Heq in H0, Hlt |- *. exact (Hpaths k i Hk H0 Hlt).
      + rewrite <- (nodeToNumber_inj _ _ i Ht Hk), Hv, Z.add_comm.
        exact (path_snoc g src c (w !!! num) e Hc He Hi). }
    destruct (findLeast w2) as [c' | | |] eqn:Hfl;
      [| exact I | exfalso; exact (findLeast_not_undef _ Hfl)
       | exfalso; exact (findLeast_not_fuel _ Hfl)].
    rewrite bind_Ok.
    destruct (findLeast_ok w2 c' Hfl) as (i' & Hi' & Hc'alph & Hi'lt & Hw2i'0 & Hw2i'42 & _).
    rewrite Hi', bind_Ok.
    assert (HS2 : forall s, In s (c :: S) -> exists i, nodeToNumber s = Ok i /\ w2 !!! i = 0).
    { intros s [<- | Hs]; [exists num; split; assumption |].
      destruct (HS s Hs) as (i & Hi & Hwi). exists i. split; [exact Hi |].
      destruct (decide (i = num)) as [-> | Hin]; [exact Hw2num |].
      destruct (nodeToNumber_inv s i Hi) as (_ & Hilt & _).
      pose proof (Hnn2 i ltac:(lia)) as Hge.
      rewrite Hw2ne in Hge |- * by exact Hin.
      destruct (Hspec i) as (Hle & _ & _). lia. }
    apply IH; [| simpl; lia].
    split; [exact Hi' |].
    split; [unfold w2; rewrite length_insert; lia |].
    split.
    { intros j Hj. rewrite Hw2ne by lia.
      destruct (Hwhy j) as [-> | (e & _ & _ & Ht & _)]; [apply Hhigh; exact Hj |].
      destruct (nodeToNumber_inv _ _ Ht) as (_ & Hlt & _). lia. }
    split; [exact Hnn2 |]. split; [exact Hpaths2 |].
    split; [exact (Hpaths2 c' i' Hi' Hw2i'0 Hw2i'42) |].
    split; [exact Hw2i'42 |].
    split; [exact HS2 |].
    split.
    { intros Hin. destruct (HS2 c' Hin) as (j & Hj & Hw2j).
      rewrite Hi' in Hj. injection Hj as <-. contradiction. }
    constructor; assumption.
Qed.

End Sound.

Lemma inv_sound_start (g : list edgeWeight) (src : ascii) (n : nat) :
  nodeToNumber src = Ok n ->
  inv_sound g src [] (<[n := 0]> initializeNodeWeight) src n.
Proof.
  intros Hn. destruct (nodeToNumber_inv src n Hn) as (_ & Hnlt & _).
  split; [exact Hn |].
  split; [rewrite length_insert; reflexivity |].
  split; [intros i Hi; rewrite initial_weights by lia; destruct decide; [lia | reflexivity] |].
  split; [intros i Hi; rewrite initial_weights by lia; destruct decide; lia |].
  split.
  { intros k i Hk H0 Hlt. destruct (nodeToNumber_inv k i Hk) as (_ & Hilt & _).
    rewrite initial_weights in H0, Hlt |- * by lia.
    destruct (decide (n = i)) as [-> | _]; [contradiction | unfold INFINITY_APPROX in Hlt; lia]. }
  rewrite initial_weights by lia. destruct (decide (n = n)) as [_ | []]; [| reflexivity].
  split; [apply path_nil |]. split; [lia |].
  split; [intros s [] |]. split; [intros [] | constructor].
Qed.

Lemma findRoute_outcome (g : list edgeWeight) (from to : ascii) :
  wf_graph g -> In from alphabet ->
  match findRoute g from to with
  | Ok (d, loc, _) => path g from loc d /\ 0 <= d < 42
  | Uninit => True
  | Undefined => False
  | OutOfFuel => False
  end.
Proof.
  intros Hwf Hfrom. destruct (nodeToNumber_ok from Hfrom) as (n & Hn & _).
  rewrite (findRoute_unfold _ _ _ n Hn).
  pose proof (findRoute_loop_sound g from to Hwf LOOP_FUEL [] _ from n (inv_sound_start g from n Hn)
                ltac:(unfold LOOP_FUEL, VERTEX_COUNT; simpl; lia)) as H.
  rewrite markVisited_nil in H.
  destruct (findRoute_loop LOOP_FUEL g _ from n to) as [[[[g1 w1] c1] n1] | | |];
    [rewrite bind_Ok; exact H | exact I | exact H | exact H].
Qed.

Lemma findRoute_ok_route (g : list edgeWeight) (from to loc : ascii) (d : Z) (g' : list edgeWeight) :
  wf_graph g -> findRoute g from to = Ok (d, loc, g') ->
  loc = to /\ path g from to d /\ 0 <= d < 42.
Proof.
  intros Hwf H.
  destruct (nodeToNumber from) as [n | | |] eqn:Hn.
  2: unfold findRoute in H; rewrite Hn, bind_Uninit in H; discriminate.
  2: exfalso; exact (nodeToNumber_not_undef from Hn).
  2: exfalso; exact (nodeToNumber_not_fuel from Hn).
  destruct (nodeToNumber_inv from n Hn) as (Hfrom & _ & _).
  pose proof (findRoute_outcome g from to Hwf Hfrom) as Hout.
  rewrite H in Hout. destruct Hout as [Hp Hd].
  rewrite (findRoute_unfold _ _ _ n Hn) in H.
  destruct (findRoute_loop LOOP_FUEL g _ from n to) as [[[[g1 w1] c1] n1] | | |] eqn:Hrun;
    [rewrite bind_Ok in H | discriminate | discriminate | discriminate].
  injection H as _ Hloc _.
  rewrite (findRoute_loop_target _ _ _ _ _ _ _ _ _ _ Hrun) in Hloc. subst loc.
  split; [reflexivity |]. split; assumption.
Qed.

(** On a well-formed graph every distance [findRoute] returns is the
    weight of an actual route from [currentLocation] to [currentState]
    in the graph, and lies in [0, INFINITY_APPROX). *)
Theorem findRoute_sound (g : list edgeWeight) (from to loc : ascii) (d : Z) (g' : list edgeWeight) :
  wf_graph g -> findRoute g from to = Ok (d, loc, g') ->
  path g from to d /\ 0 <= d < 42.
Proof.
  intros Hwf H. destruct (findRoute_ok_route g from to loc d g' Hwf H) as (_ & Hp & Hd).
  split; assumption.
Qed.

Lemma findRoute_sound_witness :
  wf_graph test_maze /\
  findRoute test_maze "E"%char "W"%char = Ok (3, "W"%char, markVisited ["E"; "N"; "F"; "A"]%char test_maze) /\
  path test_maze "E"%char "W"%char 3 /\ 0 <= 3 < 42.
Proof.
  assert (Hwf : wf_graph test_maze) by (apply wf_graphb_sound; vm_compute; reflexivity).
  assert (H : findRoute test_maze "E"%char "W"%char = Ok (3, "W"%char, markVisited ["E"; "N"; "F"; "A"]%char test_maze))
    by (vm_compute; reflexivity).
  split; [exact Hwf |]. split; [exact H |].
  exact (findRoute_sound _ _ _ _ _ _ Hwf H).
Defined.

(** On a well-formed graph, from a start in the alphabet, [findRoute]
    has two outcomes only: it returns a distance with the location set to
    [currentState], or it stops in the uninitialized read of [findLeast];
    it neither overflows nor runs out of its [LOOP_FUEL] rounds. *)
Theorem findRoute_returns_or_uninit (g : list edgeWeight) (from to : ascii) :
  wf_graph g -> In from alphabet ->
  findRoute g from to = Uninit \/ exists d g', findRoute g from to = Ok (d, to, g').
Proof.
  intros Hwf Hfrom. pose proof (findRoute_outcome g from to Hwf Hfrom) as Hout.
  destruct (findRoute g from to) as [[[d loc] g'] | | |] eqn:Hr;
    [| left; reflexivity | exact (False_rec _ Hout) | exact (False_rec _ Hout)].
  right. rewrite (findRoute_ok_target g from to loc d g' Hr). exists d, g'. reflexivity.
Qed.

Lemma findRoute_returns_or_uninit_witness :
  wf_graph split_maze /\ In "E"%char alphabet /\
  (findRoute split_maze "E"%char "M"%char = Uninit \/
   exists d g', findRoute split_maze "E"%char "M"%char = Ok (d, "M"%char, g')).
Proof.
  assert (Hwf : wf_graph split_maze) by (apply wf_graphb_sound; vm_compute; reflexivity).
  assert (HE : In "E"%char alphabet) by (simpl; tauto).
  split; [exact Hwf |]. split; [exact HE |].
  exact (findRoute_returns_or_uninit _ _ _ Hwf HE).
Defined.

(* ------------------------------------------------------------------ *)
(** ** [findLeast], [findNeighbors], [removeVertex], node numbers *)

Lemma findLeast_loop_first (w : list Z) (i : nat) (base : Z) (node : option nat) :
  (findLeast_loop w i base node = node /\
   forall k x, w !! k = Some x -> x = 0 \/ base <= x) \/
  (exists k x, findLeast_loop w i base node = Some (i + k)%nat /\ w !! k = Some x /\
     x <> 0 /\ x < base /\ (forall k' y, w !! k' = Some y -> y <> 0 -> x <= y) /\
     (forall k' y, (k' < k)%nat -> w !! k' = Some y -> y <> 0 -> x < y)).
Proof.
  revert i base node. induction w as [| x rest IH]; intros i base node; simpl.
  - left. split; [reflexivity | intros k x Hk; rewrite lookup_nil in Hk; discriminate].
  - destruct (Z.eqb_spec x 0) as [Hx0 | Hx0]; destruct (Z.ltb_spec x base) as [Hxb | Hxb];
      simpl.
    3: {
      destruct (IH (S i) x (Some i)) as [[-> Hrest] | (k & x' & -> & Hk & Hx'0 & Hx'b & Hmin & Hfirst)].
      - right. exists 0%nat, x. rewrite Nat.add_0_r.
        split; [reflexivity |]. split; [reflexivity |]. split; [exact Hx0 |].
        split; [exact Hxb |].
        split; [| intros k' y Hk'; lia].
        intros [| k'] y Hy Hy0; simpl in Hy; [injection Hy as <-; lia |].
        destruct (Hrest k' y Hy); lia.
      - right. exists (S k), x'. replace (i + S k)%nat with (S i + k)%nat by lia.
        split; [reflexivity |]. split; [exact Hk |]. split; [exact Hx'0 |].
        split; [lia |].
        split.
        + intros [| k'] y Hy Hy0; simpl in Hy; [injection Hy as <-; lia |].
          apply (Hmin k'); assumption.
        + intros [| k'] y Hlt Hy Hy0; simpl in Hy; [injection Hy as <-; lia |].
          apply (Hfirst k'); [lia | assumption | assumption]. }
    all: destruct (IH (S i) base node) as [[-> Hrest] | (k & x' & -> & Hk & Hx'0 & Hx'b & Hmin & Hfirst)];
      [left; split; [reflexivity |];
       intros [| k'] y Hy; simpl in Hy; [injection Hy as <-; lia | apply (Hrest k'); exact Hy]
      | right; exists (S k), x'; replace (i + S k)%nat with (S i + k)%nat by lia;
        split; [reflexivity |]; split; [exact Hk |]; split; [exact Hx'0 |];
        split; [exact Hx'b |];
        split;
        [intros [| k'] y Hy Hy0; simpl in Hy; [injection Hy as <-; lia | apply (Hmin k'); assumption]
        | intros [| k'] y Hlt Hy Hy0; simpl in Hy;
          [injection Hy as <-; lia | apply (Hfirst k'); [lia | assumption | assumption]]]].
Qed.

(** [findLeast] returns the node of a least nonzero entry below 42;
    among equal least entries it keeps the one of the lowest index (the
    comparison is strict), so every earlier nonzero entry is larger. *)
Theorem findLeast_first_least (w : list Z) (c : ascii) :
  findLeast w = Ok c ->
  exists i, nodeToNumber c = Ok i /\ w !!! i <> 0 /\ w !!! i < 42 /\
    (forall j, (j < length w)%nat -> w !!! j <> 0 -> w !!! i <= w !!! j) /\
    (forall j, (j < i)%nat -> w !!! j <> 0 -> w !!! i < w !!! j).
Proof.
  unfold findLeast. intros H.
  destruct (findLeast_loop_first w 0 42 None) as [[Hr _] | (k & x & Hr & Hk & Hx0 & Hxb & Hmin & Hfirst)];
    rewrite Hr in H; [discriminate |].
  simpl in H. destruct (numberToNode_inv k c H) as (_ & _ & Hc).
  assert (Hklen : (k < length w)%nat) by (apply lookup_lt_Some in Hk; exact Hk).
  exists k. rewrite (list_lookup_total_correct w k x Hk). split; [exact Hc |]. split; [exact Hx0 |]. split; [exact Hxb |]. split.
  - intros j Hj Hj0. apply (Hmin j); [apply lookup_total_some; exact Hj | exact Hj0].
  - intros j Hj Hj0. apply (Hfirst j); [exact Hj | apply lookup_total_some; lia | exact Hj0].
Qed.

Lemma findLeast_first_least_witness :
  findLeast [0; 7; 5; 42; 5; 9; 42; 42; 42] = Ok "F"%char /\
  exists i, nodeToNumber "F"%char = Ok i /\
    [0; 7; 5; 42; 5; 9; 42; 42; 42] !!! i <> 0 /\ [0; 7; 5; 42; 5; 9; 42; 42; 42] !!! i < 42 /\
    (forall j, (j < length [0; 7; 5; 42; 5; 9; 42; 42; 42])%nat ->
       [0; 7; 5; 42; 5; 9; 42; 42; 42] !!! j <> 0 ->
       [0; 7; 5; 42; 5; 9; 42; 42; 42] !!! i <= [0; 7; 5; 42; 5; 9; 42; 42; 42] !!! j) /\
    (forall j, (j < i)%nat -> [0; 7; 5; 42; 5; 9; 42; 42; 42] !!! j <> 0 ->
       [0; 7; 5; 42; 5; 9; 42; 42; 42] !!! i < [0; 7; 5; 42; 5; 9; 42; 42; 42] !!! j).
Proof.
  assert (H : findLeast [0; 7; 5; 42; 5; 9; 42; 42; 42] = Ok "F"%char) by (vm_compute; reflexivity).
  split; [exact H | exact (findLeast_first_least _ _ H)].
Defined.

(** When no entry is both nonzero and below 42 (everything visited or
    still at [INFINITY_APPROX]), [node] is never assigned and [findLeast]
    converts the uninitialized value: undefined behaviour. *)
Theorem findLeast_no_candidate (w : list Z) :
  (forall j, (j < length w)%nat -> w !!! j = 0 \/ 42 <= w !!! j) ->
  findLeast w = Uninit.
Proof.
  intros Hall. unfold findLeast.
  destruct (findLeast_loop_spec w 0 42 None) as [[-> _] | (k & x & _ & Hk & Hx0 & Hxb & _)];
    [reflexivity |].
  assert (Hklen : (k < length w)%nat) by (apply lookup_lt_Some in Hk; exact Hk).
  rewrite <- (list_lookup_total_correct w k x Hk) in Hx0, Hxb.
  destruct (Hall k Hklen); lia.
Qed.

Lemma findLeast_no_candidate_witness :
  (forall j, (j < length [0; 42; 0; 50; 42; 0; 42; 42; 42])%nat ->
     [0; 42; 0; 50; 42; 0; 42; 42; 42] !!! j = 0 \/ 42 <= [0; 42; 0; 50; 42; 0; 42; 42; 42] !!! j) /\
  findLeast [0; 42; 0; 50; 42; 0; 42; 42; 42] = Uninit.
Proof.
  assert (H : forall j, (j < length [0; 42; 0; 50; 42; 0; 42; 42; 42])%nat ->
     [0; 42; 0; 50; 42; 0; 42; 42; 42] !!! j = 0 \/ 42 <= [0; 42; 0; 50; 42; 0; 42; 42; 42] !!! j).
  { intros j Hj. simpl in Hj.
    do 9 (destruct j as [| j]; [vm_compute; first [left; reflexivity | right; discriminate] |]).
    lia. }
  split; [exact H | exact (findLeast_no_candidate [0; 42; 0; 50; 42; 0; 42; 42; 42] H)].
Defined.

(** [findNeighbors] relaxes the edges leaving the current node: on an
    edge array of [VERTEX_COUNT] entries, with a non-negative current
    entry, when the edges leaving the node have non-negative weights,
    known endpoints and sums [weight + nodeWeight[currentNum]] within
    the [int] range, it returns an array of the same length where the
    current node keeps its entry and every entry becomes the least of its
    old value and of [weight e + nodeWeight[currentNum]] over the edges
    [e] into it. *)
Theorem findNeighbors_relaxes (gr : list edgeWeight) (w w1 : list Z) (c : ascii) (num : nat) :
  length gr = VERTEX_COUNT -> 0 <= w !!! num ->
  (forall e, In e gr -> initial e = c ->
     0 <= weight e /\ weight e + w !!! num <= INT_MAX /\ In (terminal e) alphabet) ->
  length w = 9%nat ->
  findNeighbors gr w c num = Ok w1 ->
  length w1 = 9%nat /\ w1 !!! num = w !!! num /\
  forall j,
    w1 !!! j <= w !!! j /\
    (forall e, In e gr -> initial e = c -> nodeToNumber (terminal e) = Ok j ->
       w1 !!! j <= weight e + w !!! num) /\
    (w1 !!! j = w !!! j \/
     exists e, In e gr /\ initial e = c /\ nodeToNumber (terminal e) = Ok j /\
               w1 !!! j = weight e + w !!! num).
Proof.
  intros Hgl Hd0 Hgr Hlen Hrun.
  destruct (findNeighbors_spec gr w c num Hgl Hd0 Hgr Hlen) as (w2 & Hrun2 & Hlen2 & Hnum2 & Hspec).
  rewrite Hrun in Hrun2. injection Hrun2 as <-.
  split; [lia |]. split; [exact Hnum2 |].
  intros j. destruct (Hspec j) as (Hle & Hwhy & Hall). split; [exact Hle |]. split; assumption.
Qed.

Lemma findNeighbors_relaxes_witness :
  length test_maze = VERTEX_COUNT /\ 0 <= [3; 0; 42; 42; 42; 42; 42; 42; 42] !!! 1%nat /\
  (forall e, In e test_maze -> initial e = "N"%char ->
     0 <= weight e /\ weight e + [3; 0; 42; 42; 42; 42; 42; 42; 42] !!! 1%nat <= INT_MAX /\
     In (terminal e) alphabet) /\
  length [3; 0; 42; 42; 42; 42; 42; 42; 42] = 9%nat /\
  findNeighbors test_maze [3; 0; 42; 42; 42; 42; 42; 42; 42] "N"%char 1%nat =
    Ok [1; 0; 1; 42; 2; 42; 42; 42; 42] /\
  length [1; 0; 1; 42; 2; 42; 42; 42; 42] = 9%nat /\
  [1; 0; 1; 42; 2; 42; 42; 42; 42] !!! 1%nat = [3; 0; 42; 42; 42; 42; 42; 42; 42] !!! 1%nat.
Proof.
  assert (Hgl : length test_maze = VERTEX_COUNT) by reflexivity.
  assert (Hd0 : 0 <= [3; 0; 42; 42; 42; 42; 42; 42; 42] !!! 1%nat) by (vm_compute; discriminate).
  assert (Hgr : forall e, In e test_maze -> initial e = "N"%char ->
     0 <= weight e /\ weight e + [3; 0; 42; 42; 42; 42; 42; 42; 42] !!! 1%nat <= INT_MAX /\
     In (terminal e) alphabet).
  { intros e He _.
    assert (Hwf : wf_graph test_maze) by (apply wf_graphb_sound; vm_compute; reflexivity).
    destruct (proj2 Hwf e He) as (_ & Ht & Hw & Hwmax).
    change ([3; 0; 42; 42; 42; 42; 42; 42; 42] !!! 1%nat) with 0.
    unfold INT_MAX, INFINITY_APPROX in *. split; [| split]; [lia | lia | exact Ht]. }
  assert (Hrun : findNeighbors test_maze [3; 0; 42; 42; 42; 42; 42; 42; 42] "N"%char 1%nat =
    Ok [1; 0; 1; 42; 2; 42; 42; 42; 42]) by (vm_compute; reflexivity).
  destruct (findNeighbors_relaxes test_maze [3; 0; 42; 42; 42; 42; 42; 42; 42] [1; 0; 1; 42; 2; 42; 42; 42; 42]
             "N"%char 1%nat Hgl Hd0 Hgr eq_refl Hrun) as (Hlen & Hnum & _).
  split; [exact Hgl |]. split; [exact Hd0 |]. split; [exact Hgr |]. split; [reflexivity |].
  split; [exact Hrun |]. split; [exact Hlen | exact Hnum].
Defined.

Lemma nodeToNumber_outside (c : ascii) : ~ In c alphabet -> nodeToNumber c = Uninit.
Proof.
  intros Hc. destruct (nodeToNumber c) as [n | | |] eqn:Hn.
  - exfalso. apply Hc. exact (proj1 (nodeToNumber_inv c n Hn)).
  - reflexivity.
  - exfalso. exact (nodeToNumber_not_undef c Hn).
  - exfalso. exact (nodeToNumber_not_fuel c Hn).
Qed.

(** Relaxing an edge from the current node never changes the current
    node's own entry when the weight is non-negative. *)
Lemma relax_keeps_current (w : list Z) (num nb : nat) (d x : Z) :
  w !!! num = d -> 0 <= x ->
  (if x + d <? w !!! nb then <[nb := x + d]> w else w) !!! num = d.
Proof.
  intros Hd Hx. destruct (Z.ltb_spec (x + d) (w !!! nb)); [| exact Hd].
  rewrite list_lookup_total_insert. destruct decide as [[<- _] |]; [lia | exact Hd].
Qed.

Lemma relax_list_unknown (gr : list edgeWeight) (w : list Z) (c : ascii) (num : nat) (d : Z) :
  w !!! num = d -> 0 <= d ->
  (forall e, In e gr -> initial e = c -> 0 <= weight e /\ weight e + d <= INT_MAX) ->
  (exists e, In e gr /\ initial e = c /\ ~ In (terminal e) alphabet) ->
  relax_list gr w c num = Uninit.
Proof.
  intros Hd Hd0 Hgr (e & He & Hi & Ht). revert w Hd Hgr He.
  induction gr as [| e' rest IH]; intros w Hd Hgr He; [destruct He |].
  cbn [relax_list]. destruct He as [-> | He].
  - destruct (ascii_dec c (initial e)) as [_ | Hne]; [| exfalso; exact (Hne (eq_sym Hi))].
    rewrite (nodeToNumber_outside _ Ht). reflexivity.
  - destruct (ascii_dec c (initial e')) as [Hc | _];
      [| apply IH; [exact Hd | intros e0 He0; apply Hgr; right; exact He0 | exact He]].
    destruct (nodeToNumber (terminal e')) as [nb | | |] eqn:Hnb;
      [| reflexivity | exfalso; exact (nodeToNumber_not_undef _ Hnb)
       | exfalso; exact (nodeToNumber_not_fuel _ Hnb)].
    destruct (Hgr e' (or_introl eq_refl) (eq_sym Hc)) as [Hw Hwmax].
    rewrite bind_Ok, Hd. rewrite (int_add_ok (weight e') d) by (unfold INT_MIN; lia). rewrite bind_Ok.
    apply IH; [exact (relax_keeps_current w num nb d (weight e') Hd Hw)
              | intros e0 He0; apply Hgr; right; exact He0 | exact He].
Qed.

(** An edge leaving the current node towards a letter outside the
    switch of [nodeToNumber] makes [findNeighbors] index [nodeWeight]
    with an uninitialized number: on an edge array of [VERTEX_COUNT]
    entries, with a non-negative current entry and no [int] overflow on
    the edges leaving the node, whatever the other edges are. *)
Theorem findNeighbors_unknown_terminal (gr : list edgeWeight) (w : list Z) (c : ascii) (num : nat) :
  length gr = VERTEX_COUNT -> 0 <= w !!! num ->
  (forall e, In e gr -> initial e = c -> 0 <= weight e /\ weight e + w !!! num <= INT_MAX) ->
  (exists e, In e gr /\ initial e = c /\ ~ In (terminal e) alphabet) ->
  findNeighbors gr w c num = Uninit.
Proof.
  intros Hgl Hd0 Hgr Hex. rewrite findNeighbors_relax_list by exact Hgl.
  exact (relax_list_unknown gr w c num (w !!! num) eq_refl Hd0 Hgr Hex).
Qed.

Lemma findNeighbors_unknown_terminal_witness :
  length stray_maze = VERTEX_COUNT /\ 0 <= [0; 42; 42; 42; 42; 42; 42; 42; 42] !!! 0%nat /\
  (forall e, In e stray_maze -> initial e = "E"%char ->
     0 <= weight e /\ weight e + [0; 42; 42; 42; 42; 42; 42; 42; 42] !!! 0%nat <= INT_MAX) /\
  (exists e, In e stray_maze /\ initial e = "E"%char /\ ~ In (terminal e) alphabet) /\
  findNeighbors stray_maze [0; 42; 42; 42; 42; 42; 42; 42; 42] "E"%char 0 = Uninit.
Proof.
  assert (Hgl : length stray_maze = VERTEX_COUNT) by reflexivity.
  assert (Hd0 : 0 <= [0; 42; 42; 42; 42; 42; 42; 42; 42] !!! 0%nat) by (vm_compute; discriminate).
  assert (Hgr : forall e, In e stray_maze -> initial e = "E"%char ->
     0 <= weight e /\ weight e + [0; 42; 42; 42; 42; 42; 42; 42; 42] !!! 0%nat <= INT_MAX).
  { intros e He _.
    assert (Hb : forallb (fun e => (0 <=? weight e) && (weight e <=? INT_MAX)) stray_maze = true)
      by (vm_compute; reflexivity).
    rewrite forallb_forall in Hb. pose proof (Hb e He) as Hbe. apply andb_prop in Hbe as [H1 H2].
    apply Z.leb_le in H1. apply Z.leb_le in H2.
    change ([0; 42; 42; 42; 42; 42; 42; 42; 42] !!! 0%nat) with 0. lia. }
  assert (Hex : exists e, In e stray_maze /\ initial e = "E"%char /\ ~ In (terminal e) alphabet).
  { exists {| initial := "E"; terminal := "Q"; weight := 1 |}.
    split; [apply in_or_app; right; left; reflexivity |]. split; [reflexivity |].
    simpl. intros Hin. repeat destruct Hin as [Hin | Hin]; discriminate || contradiction. }
  split; [exact Hgl |]. split; [exact Hd0 |]. split; [exact Hgr |]. split; [exact Hex |].
  exact (findNeighbors_unknown_terminal _ _ _ _ Hgl Hd0 Hgr Hex).
Defined.

Lemma relax_list_overflow (gr : list edgeWeight) (w : list Z) (c : ascii) (num : nat) (d : Z) :
  w !!! num = d -> 0 <= d ->
  (forall e, In e gr -> initial e = c -> 0 <= weight e /\ In (terminal e) alphabet) ->
  (exists e, In e gr /\ initial e = c /\ INT_MAX < weight e + d) ->
  relax_list gr w c num = Undefined.
Proof.
  intros Hd Hd0 Hgr (e & He & Hi & Hov). revert w Hd Hgr He.
  induction gr as [| e' rest IH]; intros w Hd Hgr He; [destruct He |].
  cbn [relax_list]. destruct (ascii_dec c (initial e')) as [Hc | Hne].
  - destruct (Hgr e' (or_introl eq_refl) (eq_sym Hc)) as [Hw Ht'].
    destruct (nodeToNumber_ok _ Ht') as (nb & Hnb & _). rewrite Hnb, bind_Ok, Hd.
    destruct (Z_le_gt_dec (weight e' + d) INT_MAX) as [Hle | Hgt].
    + rewrite (int_add_ok (weight e') d) by (unfold INT_MIN; lia). rewrite bind_Ok.
      destruct He as [-> | He]; [lia |].
      apply IH; [exact (relax_keeps_current w num nb d (weight e') Hd Hw)
                | intros e0 He0; apply Hgr; right; exact He0 | exact He].
    + rewrite (int_add_overflow (weight e') d) by lia. reflexivity.
  - destruct He as [-> | He]; [exfalso; exact (Hne (eq_sym Hi)) |].
    apply IH; [exact Hd | intros e0 He0; apply Hgr; right; exact He0 | exact He].
Qed.

(** Signed overflow in [findNeighbors]: on an edge array of
    [VERTEX_COUNT] entries, with a non-negative current entry and
    non-negative weights on edges between known letters leaving the
    node, one such edge whose sum [weight + nodeWeight[currentNum]]
    exceeds [INT_MAX] makes the relaxation undefined behaviour. *)
Theorem findNeighbors_overflow (gr : list edgeWeight) (w : list Z) (c : ascii) (num : nat) :
  length gr = VERTEX_COUNT -> 0 <= w !!! num ->
  (forall e, In e gr -> initial e = c -> 0 <= weight e /\ In (terminal e) alphabet) ->
  (exists e, In e gr /\ initial e = c /\ INT_MAX < weight e + w !!! num) ->
  findNeighbors gr w c num = Undefined.
Proof.
  intros Hgl Hd0 Hgr Hex. rewrite findNeighbors_relax_list by exact Hgl.
  exact (relax_list_overflow gr w c num (w !!! num) eq_refl Hd0 Hgr Hex).
Qed.

Lemma findNeighbors_overflow_witness :
  length overflow_maze = VERTEX_COUNT /\ 0 <= [0; 1; 10; 42; 42; 42; 42; 42; 42] !!! 1%nat /\
  (forall e, In e overflow_maze -> initial e = "N"%char ->
     0 <= weight e /\ In (terminal e) alphabet) /\
  (exists e, In e overflow_maze /\ initial e = "N"%char /\
     INT_MAX < weight e + [0; 1; 10; 42; 42; 42; 42; 42; 42] !!! 1%nat) /\
  findNeighbors overflow_maze [0; 1; 10; 42; 42; 42; 42; 42; 42] "N"%char 1 = Undefined.
Proof.
  assert (Hgl : length overflow_maze = VERTEX_COUNT) by reflexivity.
  assert (Hd0 : 0 <= [0; 1; 10; 42; 42; 42; 42; 42; 42] !!! 1%nat) by (vm_compute; discriminate).
  assert (Hgr : forall e, In e overflow_maze -> initial e = "N"%char ->
     0 <= weight e /\ In (terminal e) alphabet).
  { intros e He _.
    assert (Hb : forallb (fun e => (0 <=? weight e) &&
                                   if in_dec ascii_dec (terminal e) alphabet then true else false)
                   overflow_maze = true) by (vm_compute; reflexivity).
    rewrite forallb_forall in Hb. pose proof (Hb e He) as Hbe. apply andb_prop in Hbe as [H1 H2].
    apply Z.leb_le in H1. destruct (in_dec ascii_dec (terminal e) alphabet); [| discriminate].
    split; assumption. }
  assert (Hex : exists e, In e overflow_maze /\ initial e = "N"%char /\
     INT_MAX < weight e + [0; 1; 10; 42; 42; 42; 42; 42; 42] !!! 1%nat).
  { exists {| initial := "N"; terminal := "F"; weight := INT_MAX |}.
    split; [right; left; reflexivity |]. split; [reflexivity |].
    change ([0; 1; 10; 42; 42; 42; 42; 42; 42] !!! 1%nat) with 1. simpl. lia. }
  split; [exact Hgl |]. split; [exact Hd0 |]. split; [exact Hgr |]. split; [exact Hex |].
  exact (findNeighbors_overflow _ _ _ _ Hgl Hd0 Hgr Hex).
Defined.

(** [removeVertex] cuts every edge into [currentLocation] (turning it
    into the unused node [Z]) and nothing else: the array keeps its
    length, every slot keeps its weight, edges ending elsewhere stay as
    they are (edges leaving [currentLocation] included), and afterwards
    no edge ends at [currentLocation]. *)
Theorem removeVertex_cuts_incoming (g : list edgeWeight) (loc : ascii) :
  loc <> "Z"%char ->
  length (removeVertex g loc) = length g /\
  (forall e, In e (removeVertex g loc) -> terminal e <> loc) /\
  (forall i e, g !! i = Some e -> terminal e <> loc -> removeVertex g loc !! i = Some e) /\
  (forall i e, g !! i = Some e -> terminal e = loc ->
     removeVertex g loc !! i = Some {| initial := "Z"; terminal := "Z"; weight := weight e |}).
Proof.
  intros Hloc. unfold removeVertex. split; [apply length_map |]. split.
  - intros e He. apply in_map_iff in He as (e0 & <- & _).
    destruct (ascii_dec (terminal e0) loc) as [_ | Hne]; [simpl; intros H; exact (Hloc (eq_sym H)) | exact Hne].
  - split; intros i e Hi Ht; rewrite list_lookup_fmap, Hi; simpl;
      destruct (ascii_dec (terminal e) loc); (reflexivity || contradiction).
Qed.

Lemma removeVertex_cuts_incoming_witness :
  "F"%char <> "Z"%char /\ length (removeVertex test_maze "F"%char) = length test_maze.
Proof.
  assert (H : "F"%char <> "Z"%char) by discriminate.
  split; [exact H | exact (proj1 (removeVertex_cuts_incoming test_maze _ H))].
Defined.

Lemma readEdges_take (n i : nat) (inFile : list triple) (baseGraph : list edgeWeight) :
  readEdges n i inFile baseGraph = readEdges n i (take n inFile) baseGraph.
Proof.
  revert i inFile baseGraph. induction n as [| n IH]; intros i inFile baseGraph; [reflexivity |].
  destruct inFile as [| [[a b] w] rest]; [reflexivity |].
  simpl. apply IH.
Qed.

(** With at least [VERTEX_COUNT] triples in the file, [loadGraph]
    overwrites the whole array with the first [VERTEX_COUNT] of them, in
    order: the previous contents and any further triples play no part. *)
Theorem loadGraph_long_source (inFile : list triple) (baseGraph : list edgeWeight) :
  (VERTEX_COUNT <= length inFile)%nat -> length baseGraph = VERTEX_COUNT ->
  loadGraph (Some inFile) baseGraph = (true, edgeOfTriple <$> take VERTEX_COUNT inFile).
Proof.
  intros Hin Hbase. unfold loadGraph. f_equal.
  rewrite readEdges_take.
  set (F := take VERTEX_COUNT inFile).
  assert (HF : length F = VERTEX_COUNT) by (unfold F; rewrite length_take; lia).
  destruct (readEdges_spec VERTEX_COUNT 0 F baseGraph) as [H1 _]; [lia | lia |].
  apply list_eq. intros k.
  rewrite list_lookup_fmap.
  destruct (decide (k < VERTEX_COUNT)%nat) as [Hk | Hk].
  - destruct (lookup_lt_is_Some_2 F k ltac:(lia)) as [[[a b] w] Ht].
    pose proof (H1 k a b w Ht) as Hk'. change (0 + k)%nat with k in Hk'. rewrite Hk', Ht. reflexivity.
  - rewrite (lookup_ge_None_2 F k) by lia.
    apply lookup_ge_None_2. rewrite readEdges_length. lia.
Qed.

Lemma loadGraph_long_source_witness :
  (VERTEX_COUNT <= length (seventeen_triples ++ [("W"%char, "B"%char, 2%Z); ("B"%char, "M"%char, 3%Z)]))%nat /\
  length unset_graph = VERTEX_COUNT /\
  loadGraph (Some (seventeen_triples ++ [("W"%char, "B"%char, 2%Z); ("B"%char, "M"%char, 3%Z)])) unset_graph =
    (true, edgeOfTriple <$> take VERTEX_COUNT (seventeen_triples ++ [("W"%char, "B"%char, 2%Z); ("B"%char, "M"%char, 3%Z)])).
Proof.
  assert (H1 : (VERTEX_COUNT <= length (seventeen_triples ++ [("W"%char, "B"%char, 2%Z); ("B"%char, "M"%char, 3%Z)]))%nat)
    by (vm_compute; lia).
  assert (H2 : length unset_graph = VERTEX_COUNT) by reflexivity.
  split; [exact H1 |]. split; [exact H2 |].
  exact (loadGraph_long_source _ _ H1 H2).
Defined.

(* ------------------------------------------------------------------ *)
(** ** The drives *)

(** [identifyState] sends the rat to the exit exactly when all four
    percentages are above 50. *)
Theorem identifyState_exit_iff (drives : ratState) :
  identifyState drives = "E"%char <->
  50 < fun_ (setPercentage drives) /\ 50 < health (setPercentage drives) /\
  50 < hunger (setPercentage drives) /\ 50 < sleep (setPercentage drives).
Proof.
  unfold identifyState.
  destruct (setPercentage drives) as [f h u s]; simpl.
  zcases; split; intros Hgoal; try discriminate Hgoal; try reflexivity; lia.
Qed.

(** [identifyState] only ever names the exit or one of the four
    drive stations: never [A] or [B], nor any letter outside the maze. *)
Theorem identifyState_targets (drives : ratState) :
  In (identifyState drives) ["E"; "F"; "M"; "N"; "W"]%char /\ In (identifyState drives) alphabet.
Proof.
  unfold identifyState.
  destruct (setPercentage drives) as [f h u s]; simpl.
  zcases; simpl; split; tauto.
Qed.

(** For drives within their bounds every percentage lies in [0, 100],
    and it is 100 exactly when the drive is at its maximum. *)
Theorem setPercentage_range (drives : ratState) :
  drives_in_bounds drives ->
  let p := setPercentage drives in
  (0 <= fun_ p <= 100 /\ (fun_ p = 100 <-> fun_ drives = FUN_MAX)) /\
  (0 <= health p <= 100 /\ (health p = 100 <-> health drives = HEALTH_MAX)) /\
  (0 <= hunger p <= 100 /\ (hunger p = 100 <-> hunger drives = HUNGER_MAX)) /\
  (0 <= sleep p <= 100 /\ (sleep p = 100 <-> sleep drives = SLEEP_MAX)).
Proof.
  unfold drives_in_bounds, setPercentage, FUN_MAX, HEALTH_MAX, HUNGER_MAX, SLEEP_MAX; simpl.
  destruct drives as [f h u s]; simpl. intros (Hf & Hh & Hu & Hs).
  assert (Hq : forall x m, 0 < m -> 0 <= x <= m ->
            0 <= Z.quot (100 * x) m <= 100 /\ (Z.quot (100 * x) m = 100 <-> x = m)).
  { intros x m Hm Hx. rewrite Z.quot_div_nonneg by lia.
    split; [split; [apply Z.div_pos; lia | apply Z.div_le_upper_bound; lia] |].
    split; intros H.
    - destruct (Z.eq_dec x m) as [| Hne]; [assumption | exfalso].
      assert (100 * x / m < 100) by (apply Z.div_lt_upper_bound; lia). lia.
    - subst x. apply Z.div_mul. lia. }
  repeat split; try apply Hq; try lia; apply (Hq _ _ ltac:(lia) ltac:(lia)); assumption.
Qed.

Lemma setPercentage_range_witness :
  drives_in_bounds {| fun_ := 35; health := 12; hunger := 0; sleep := 39 |} /\
  fun_ (setPercentage {| fun_ := 35; health := 12; hunger := 0; sleep := 39 |}) = 100.
Proof.
  assert (H : drives_in_bounds {| fun_ := 35; health := 12; hunger := 0; sleep := 39 |})
    by (unfold drives_in_bounds, FUN_MAX, HEALTH_MAX, HUNGER_MAX, SLEEP_MAX; simpl; lia).
  split; [exact H |].
  destruct (setPercentage_range _ H) as ((_ & Hf) & _). apply Hf. reflexivity.
Defined.



(** [rand() % MAX] never reaches [MAX]: the rat starts with every drive
    at least one unit below its maximum (and at least 0). *)
Theorem initializeDrives_below_max (r1 r2 r3 r4 : Z) :
  0 <= r1 -> 0 <= r2 -> 0 <= r3 -> 0 <= r4 ->
  let d := initializeDrives r1 r2 r3 r4 in
  0 <= fun_ d < FUN_MAX /\ 0 <= health d < HEALTH_MAX /\
  0 <= hunger d < HUNGER_MAX /\ 0 <= sleep d < SLEEP_MAX.
Proof.
  intros ? ? ? ?. cbv zeta. unfold initializeDrives, FUN_MAX, HEALTH_MAX, HUNGER_MAX, SLEEP_MAX; simpl.
  rewrite !Z.rem_mod_nonneg by lia.
  pose proof (Z.mod_pos_bound r1 35 ltac:(lia)). pose proof (Z.mod_pos_bound r2 60 ltac:(lia)).
  pose proof (Z.mod_pos_bound r3 30 ltac:(lia)). pose proof (Z.mod_pos_bound r4 40 ltac:(lia)).
  lia.
Qed.

Lemma initializeDrives_below_max_witness :
  0 <= 2147483647 /\ 0 <= 35 /\ 0 <= 59 /\ 0 <= 100 /\
  0 <= fun_ (initializeDrives 2147483647 35 59 100) < FUN_MAX.
Proof.
  assert (H : 0 <= 2147483647 /\ 0 <= 35 /\ 0 <= 59 /\ 0 <= 100) by lia.
  destruct H as (H1 & H2 & H3 & H4).
  split; [exact H1 |]. split; [exact H2 |]. split; [exact H3 |]. split; [exact H4 |].
  exact (proj1 (initializeDrives_below_max _ _ _ _ H1 H2 H3 H4)).
Defined.

(* ------------------------------------------------------------------ *)
(** ** The simulation loop *)

Lemma copyGraph_id (g : list edgeWeight) : copyGraph g = g.
Proof.
  unfold copyGraph. induction g as [| [a b w] rest IH]; [reflexivity |].
  simpl. rewrite IH. reflexivity.
Qed.

Lemma simRound_ok (baseGraph : list edgeWeight) (drives drives' : ratState) (loc loc' : ascii) :
  simRound baseGraph drives loc = Ok (drives', loc') ->
  exists travel g', findRoute baseGraph loc (identifyState drives) = Ok (travel, loc', g') /\
    drives' = satisfyNeed (updateState drives travel) loc'.
Proof.
  unfold simRound. rewrite copyGraph_id. intros H.
  destruct (findRoute baseGraph loc (identifyState drives)) as [[[travel l] g'] | | |] eqn:Hr;
    [rewrite bind_Ok in H | discriminate | discriminate | discriminate].
  injection H as <- <-. exists travel, g'. split; reflexivity.
Qed.

Lemma simRound_facts (baseGraph : list edgeWeight) (drives drives' : ratState) (loc loc' : ascii) :
  wf_graph baseGraph ->
  simRound baseGraph drives loc = Ok (drives', loc') ->
  loc' = identifyState drives /\
  exists travel, path baseGraph loc loc' travel /\ 0 <= travel < 42 /\
    drives' = satisfyNeed (updateState drives travel) loc'.
Proof.
  intros Hwf H. destruct (simRound_ok _ _ _ _ _ H) as (travel & g' & Hr & ->).
  destruct (findRoute_ok_route _ _ _ _ _ _ Hwf Hr) as (-> & Hp & Ht).
  split; [reflexivity |]. exists travel. auto.
Qed.

(** One pass of the loop of [main] on a well-formed graph: the rat
    ends at the node [identifyState] chose, having walked an actual
    route of the maze of length [travel] in [0, 42); the drives decay by
    [travel] and the drive of the new location is then refilled. *)
Theorem simRound_spec (baseGraph : list edgeWeight) (drives drives' : ratState) (loc loc' : ascii) :
  wf_graph baseGraph ->
  simRound baseGraph drives loc = Ok (drives', loc') ->
  loc' = identifyState drives /\
  exists travel, path baseGraph loc loc' travel /\ 0 <= travel < 42 /\
    drives' = satisfyNeed (updateState drives travel) loc'.
Proof.
  intros Hwf H. destruct (simRound_ok _ _ _ _ _ H) as (travel & g' & Hr & Hd).
  split; [exact (findRoute_ok_target _ _ _ _ _ _ Hr) |].
  destruct (findRoute_ok_route _ _ _ _ _ _ Hwf Hr) as (Hloc & Hp & Ht).
  exists travel. split; [rewrite Hloc; exact Hp |]. split; [exact Ht | exact Hd].
Qed.

Lemma simRound_spec_witness :
  wf_graph test_maze /\
  simRound test_maze {| fun_ := 10; health := 50; hunger := 5; sleep := 20 |} "E"%char =
    Ok ({| fun_ := 8; health := 48; hunger := 30; sleep := 18 |}, "F"%char) /\
  "F"%char = identifyState {| fun_ := 10; health := 50; hunger := 5; sleep := 20 |}.
Proof.
  assert (Hwf : wf_graph test_maze) by (apply wf_graphb_sound; vm_compute; reflexivity).
  assert (H : simRound test_maze {| fun_ := 10; health := 50; hunger := 5; sleep := 20 |} "E"%char =
    Ok ({| fun_ := 8; health := 48; hunger := 30; sleep := 18 |}, "F"%char)) by (vm_compute; reflexivity).
  split; [exact Hwf |]. split; [exact H |].
  exact (proj1 (simRound_spec _ _ _ _ _ Hwf H)).
Defined.

(** On a well-formed graph, drives that start within their bounds are
    within their bounds when the loop of [main] ends, and it ends with
    the rat back at the exit [E]. *)
Theorem mainLoop_in_bounds (fuel : nat) (baseGraph : list edgeWeight) (drives drives' : ratState)
    (loc loc' : ascii) :
  wf_graph baseGraph -> drives_in_bounds drives ->
  mainLoop fuel baseGraph drives loc = Ok (drives', loc') ->
  drives_in_bounds drives' /\ loc' = "E"%char.
Proof.
  intros Hwf. revert drives loc.
  induction fuel as [| f IH]; intros drives loc Hin H; [discriminate |].
  simpl in H.
  destruct (simRound baseGraph drives loc) as [[d1 l1] | | |] eqn:Hr;
    [rewrite bind_Ok in H | discriminate | discriminate | discriminate].
  destruct (simRound_facts _ _ _ _ _ Hwf Hr) as (_ & travel & _ & Ht & ->).
  assert (Hin1 : drives_in_bounds (satisfyNeed (updateState drives travel) l1))
    by (apply satisfyNeed_in_bounds, updateState_in_bounds; [lia | exact Hin]).
  destruct (ascii_dec l1 "E") as [-> | _].
  - injection H as <- <-. split; [exact Hin1 | reflexivity].
  - exact (IH _ _ Hin1 H).
Qed.

Lemma mainLoop_in_bounds_witness :
  wf_graph test_maze /\
  drives_in_bounds {| fun_ := 10; health := 50; hunger := 5; sleep := 20 |} /\
  mainLoop 20 test_maze {| fun_ := 10; health := 50; hunger := 5; sleep := 20 |} "E"%char =
    Ok ({| fun_ := 32; health := 43; hunger := 25; sleep := 39 |}, "E"%char) /\
  drives_in_bounds {| fun_ := 32; health := 43; hunger := 25; sleep := 39 |}.
Proof.
  assert (Hwf : wf_graph test_maze) by (apply wf_graphb_sound; vm_compute; reflexivity).
  assert (Hin : drives_in_bounds {| fun_ := 10; health := 50; hunger := 5; sleep := 20 |})
    by (unfold drives_in_bounds, FUN_MAX, HEALTH_MAX, HUNGER_MAX, SLEEP_MAX; simpl; lia).
  assert (H : mainLoop 20 test_maze {| fun_ := 10; health := 50; hunger := 5; sleep := 20 |} "E"%char =
    Ok ({| fun_ := 32; health := 43; hunger := 25; sleep := 39 |}, "E"%char)) by (vm_compute; reflexivity).
  split; [exact Hwf |]. split; [exact Hin |]. split; [exact H |].
  exact (proj1 (mainLoop_in_bounds _ _ _ _ _ _ Hwf Hin H)).
Defined.

(** The loop of [main] stops only after a pass whose classification was
    Exit: the run goes through passes that do not end at [E] to a last
    pass, from some state [(d0, l0)], that returns the final drives at
    [E]; since [findRoute] always ends at its target, [identifyState d0]
    is [E] (on any graph). *)
Theorem mainLoop_ends_after_exit (fuel : nat) (baseGraph : list edgeWeight) (drives drives' : ratState)
    (loc loc' : ascii) :
  mainLoop fuel baseGraph drives loc = Ok (drives', loc') ->
  loc' = "E"%char /\
  exists d0 l0, loop_reaches baseGraph drives loc d0 l0 /\
    simRound baseGraph d0 l0 = Ok (drives', "E"%char) /\ identifyState d0 = "E"%char.
Proof.
  revert drives loc.
  induction fuel as [| f IH]; intros drives loc H; [discriminate |].
  simpl in H.
  destruct (simRound baseGraph drives loc) as [[d1 l1] | | |] eqn:Hr;
    [rewrite bind_Ok in H | discriminate | discriminate | discriminate].
  destruct (ascii_dec l1 "E") as [-> | Hne].
  - injection H as <- <-. split; [reflexivity |]. exists drives, loc.
    split; [apply reaches_here |]. split; [exact Hr |].
    destruct (simRound_ok _ _ _ _ _ Hr) as (travel & g' & Hf & _).
    symmetry. exact (findRoute_ok_target _ _ _ _ _ _ Hf).
  - destruct (IH _ _ H) as (Hloc & d0 & l0 & Hreach & Hlast & Hid).
    split; [exact Hloc |]. exists d0, l0. split; [| split; assumption].
    exact (reaches_pass baseGraph drives loc d1 l1 d0 l0 Hr Hne Hreach).
Qed.

Lemma mainLoop_ends_after_exit_witness :
  mainLoop 20 test_maze {| fun_ := 10; health := 50; hunger := 5; sleep := 20 |} "E"%char =
    Ok ({| fun_ := 32; health := 43; hunger := 25; sleep := 39 |}, "E"%char) /\
  "E"%char = "E"%char.
Proof.
  assert (H : mainLoop 20 test_maze {| fun_ := 10; health := 50; hunger := 5; sleep := 20 |} "E"%char =
    Ok ({| fun_ := 32; health := 43; hunger := 25; sleep := 39 |}, "E"%char)) by (vm_compute; reflexivity).
  split; [exact H | exact (proj1 (mainLoop_ends_after_exit _ _ _ _ _ _ H))].
Defined.

(** A rat at the exit whose drives already classify as Exit leaves
    after a single pass, with its drives unchanged: the route from [E]
    to [E] has length 0, whatever the graph. *)
Theorem mainLoop_exit_at_start (fuel : nat) (baseGraph : list edgeWeight) (drives : ratState) :
  identifyState drives = "E"%char ->
  0 <= fun_ drives -> 0 <= health drives -> 0 <= hunger drives -> 0 <= sleep drives ->
  mainLoop (S fuel) baseGraph drives "E"%char = Ok (drives, "E"%char).
Proof.
  intros Hid Hf Hh Hu Hs. cbn [mainLoop].
  unfold simRound. rewrite copyGraph_id, Hid.
  rewrite (findRoute_unfold baseGraph "E"%char "E"%char 0%nat eq_refl).
  unfold LOOP_FUEL, VERTEX_COUNT. rewrite findRoute_loop_S.
  destruct (ascii_dec "E" "E") as [_ | Hne]; [| contradiction].
  rewrite !bind_Ok.
  replace (<[0%nat := 0]> initializeNodeWeight !!! 0%nat) with 0 by reflexivity.
  assert (Hu0 : updateState drives 0 = drives).
  { destruct drives as [f h u s]. unfold updateState; simpl in *. rewrite !clamp0_max.
    f_equal; lia. }
  rewrite Hu0. reflexivity.
Qed.

Lemma mainLoop_exit_at_start_witness :
  identifyState {| fun_ := 30; health := 55; hunger := 25; sleep := 35 |} = "E"%char /\
  mainLoop 1 heavy_maze {| fun_ := 30; health := 55; hunger := 25; sleep := 35 |} "E"%char =
    Ok ({| fun_ := 30; health := 55; hunger := 25; sleep := 35 |}, "E"%char).
Proof.
  assert (H : identifyState {| fun_ := 30; health := 55; hunger := 25; sleep := 35 |} = "E"%char)
    by (vm_compute; reflexivity).
  split; [exact H |].
  apply (mainLoop_exit_at_start 0 heavy_maze _ H); simpl; lia.
Defined.
